(** * LargeFileTransfer: the signaling server (server.js)

    A shallow embedding of the room registry, the socket handlers, the
    room sweep and the connection rate limiter of [server.js], with the
    properties of the signaling core proved over it.

    Conventions of the embedding:
    - a value received from a client is a [JsVal]; a property that is
      absent reads as [JUndefined], a property read on [null] or
      [undefined] is a [TypeError], and so is a call of a value that is
      not a function; no handler catches one, so the handler ends there
      ([Throws], with the state it has reached and what it has sent);
    - the [rooms] Map and the [connectionCounts] Map are finite maps keyed
      by strings, a [Set] of socket ids is a finite set; the order in which
      [rooms.forEach] visits the rooms, the order of insertion, is kept
      beside the map;
    - times ([Date.now()], [new Date()]) are integers, in milliseconds;
    - what a handler sends is a list of [Emission]s, in program order;
      [console.log] is not modelled;
    - socket.io's room membership is the [joined] component of the state:
      [socket.join(r)] adds the socket to room [r], [socket.to(r).emit]
      reaches every socket in [r] but the sender, and a socket that closes
      has left all its rooms when its [disconnect] handler runs.

    The last part embeds the TURN configuration endpoint of [server.js]
    and the helpers of the pages' shared script that do not touch the
    page: [formatTimeout], [validateFile], [checkBrowserCompatibility] with
    the filter of [showCompatibilityWarnings], and [generateSecureRoomId].
    There an integer is a [Z] or an [N], and what the browser supplies
    (random bytes, the clock, which features exist) is an argument. *)

From Stdlib Require Import QArith.
From stdpp Require Import gmap strings list fin_maps pretty.

Local Open Scope string_scope.
Local Open Scope Z_scope.

#[local] Set Warnings "-register-all,-clear-no-such-hyp".

(** ** JavaScript values *)

Inductive JsNum : Type :=
| JNaN
| JNegInf
| JPosInf
| JFin (q : Q).

Inductive JsVal : Type :=
| JUndefined
| JNull
| JBool (b : bool)
| JNum (n : JsNum)
| JStr (s : string)
| JArr (items : list JsVal)
| JObj (fields : list (string * JsVal)).

Inductive JsType : Type :=
| TUndefined | TObject | TBoolean | TNumber | TString.

Definition typeof (v : JsVal) : JsType :=
  match v with
  | JUndefined => TUndefined
  | JNull => TObject
  | JBool _ => TBoolean
  | JNum _ => TNumber
  | JStr _ => TString
  | JArr _ => TObject
  | JObj _ => TObject
  end.

Definition is_type (v : JsVal) (t : JsType) : bool :=
  match typeof v, t with
  | TUndefined, TUndefined | TObject, TObject | TBoolean, TBoolean
  | TNumber, TNumber | TString, TString => true
  | _, _ => false
  end.

(** [a < b] on numbers: every comparison with [NaN] is false. *)
Definition num_lt (a b : JsNum) : bool :=
  match a, b with
  | JNaN, _ => false
  | _, JNaN => false
  | JNegInf, JNegInf => false
  | JNegInf, _ => true
  | _, JNegInf => false
  | JPosInf, _ => false
  | JFin _, JPosInf => true
  | JFin p, JFin q => negb (Qle_bool q p)
  end.

Definition num_eq (a b : JsNum) : bool :=
  match a, b with
  | JFin p, JFin q => Qeq_bool p q
  | JPosInf, JPosInf => true
  | JNegInf, JNegInf => true
  | _, _ => false
  end.

(** Truthiness: [undefined], [null], [false], [0], [NaN] and the empty
    string are falsy. *)
Definition truthy (v : JsVal) : bool :=
  match v with
  | JUndefined => false
  | JNull => false
  | JBool b => b
  | JNum JNaN => false
  | JNum (JFin q) => negb (Qeq_bool q 0)
  | JNum _ => true
  | JStr s => negb (String.eqb s "")
  | JArr _ => true
  | JObj _ => true
  end.

(** [a === b]. Two objects are equal only when they are one object; a
    value kept in the registry and a freshly decoded payload never are. *)
Definition strict_eq (a b : JsVal) : bool :=
  match a, b with
  | JUndefined, JUndefined => true
  | JNull, JNull => true
  | JBool x, JBool y => Bool.eqb x y
  | JNum x, JNum y => num_eq x y
  | JStr x, JStr y => String.eqb x y
  | _, _ => false
  end.

(** [a || b] *)
Definition js_or (a b : JsVal) : JsVal := if truthy a then a else b.

Fixpoint assoc (k : string) (fields : list (string * JsVal)) : JsVal :=
  match fields with
  | [] => JUndefined
  | (k', v) :: rest => if String.eqb k k' then v else assoc k rest
  end.

(** [v.k] for the property names the server reads ([roomId],
    [passwordHash], [isProtected], [sdp], [candidate], [metadata], [name],
    [size]): none of them is defined on a primitive or on an array, and
    reading any property of [null] or [undefined] throws. *)
Definition get_prop (v : JsVal) (k : string) : option JsVal :=
  match v with
  | JUndefined | JNull => None
  | JObj fields => Some (assoc k fields)
  | _ => Some JUndefined
  end.

(** ** Input validation functions *)

Definition is_alnum (c : Ascii.ascii) : bool :=
  let n := Ascii.N_of_ascii c in
  ((48 <=? n) && (n <=? 57) || (65 <=? n) && (n <=? 90)
   || (97 <=? n) && (n <=? 122))%N.

Fixpoint all_alnum (s : string) : bool :=
  match s with
  | EmptyString => true
  | String c rest => is_alnum c && all_alnum rest
  end.

(** [/^[a-zA-Z0-9]{8,15}$/.test(s)]: from 8 to 15 characters, all of them
    ASCII letters or digits; without the [m] flag [$] is the end of the
    string. A character outside ASCII is a run of bytes above 127 here, and
    fails the test as it does there. *)
Definition room_id_regex (s : string) : bool :=
  (8 <=? String.length s)%nat && (String.length s <=? 15)%nat && all_alnum s.

Definition isValidRoomId (roomId : JsVal) : bool :=
  match roomId with
  | JStr s => room_id_regex s
  | _ => false
  end.

Definition isValidSocketData (data : JsVal) : bool :=
  truthy data && is_type data TObject &&
  match get_prop data "roomId" with
  | Some roomId => isValidRoomId roomId
  | None => false
  end.

(** The string that a value which passed [isValidRoomId] is. *)
Definition as_string (v : JsVal) : string :=
  match v with
  | JStr s => s
  | _ => ""
  end.

(** ** The room registry and what a handler sends *)

(** [{ users: Set, passwordHash: string|null, createdAt: Date }] *)
Record Room : Type := mkRoom {
  users : gset string;
  passwordHash : JsVal;
  createdAt : Z
}.

(** [rooms] is the Map of the server, and [roomOrder] lists its keys in
    the order they were inserted, the order in which [rooms.forEach] visits
    them; [joined] is socket.io's own record of which sockets are in which
    room. Every socket is also in a private room named by its 20-character
    id, which [isValidRoomId] rejects; that room is left out. *)
Record Server : Type := mkServer {
  rooms : gmap string Room;
  joined : gmap string (gset string);
  roomOrder : list string
}.

Definition initial : Server := mkServer ∅ ∅ [].

Inductive Emission : Type :=
| ToSender (event : string) (args : list JsVal)
| ToRoom (room : string) (event : string) (args : list JsVal)
| Ack (response : JsVal).

(** How a run of a handler ends: it returns, or a [TypeError] ends it;
    either way after it has brought the state to [st] and sent [out]. *)
Inductive Outcome : Type :=
| Returns (st : Server) (out : list Emission)
| Throws (st : Server) (out : list Emission).

(** The sockets in room [r], for socket.io. *)
Definition members (j : gmap string (gset string)) (r : string) : gset string :=
  default ∅ (j !! r).

(** [socket.join(r)] *)
Definition socket_join (sid r : string) (j : gmap string (gset string))
  : gmap string (gset string) :=
  <[r := {[sid]} ∪ members j r]> j.

(** What socket.io does to a socket that closes, before it fires
    [disconnect]: the socket leaves every room. *)
Definition leave_all (sid : string) (j : gmap string (gset string))
  : gmap string (gset string) :=
  (λ s, s ∖ {[sid]}) <$> j.

(** Who receives an emission of socket [sid], in the state the handler
    leaves: [socket.emit] and the acknowledgement go to the socket itself,
    [socket.to(r).emit] to every socket in [r] but the sender. *)
Definition recipients (st : Server) (sid : string) (e : Emission) : gset string :=
  match e with
  | ToSender _ _ => {[sid]}
  | ToRoom r _ _ => members (joined st) r ∖ {[sid]}
  | Ack _ => {[sid]}
  end.

(** The members the registry records for room [r]; none when there is no
    such room. *)
Definition room_users (st : Server) (r : string) : gset string :=
  match rooms st !! r with
  | Some room => users room
  | None => ∅
  end.

(** ** The socket handlers *)

Definition ROOM_TIMEOUT : Z := 10 * 60 * 1000.

Definition MAX_FILE_SIZE : Q := inject_Z (10 * 1024 * 1024 * 1024).

(** [socket.on('check-room', ({ roomId }) => ...)] *)
Definition on_check_room (data : JsVal) (st : Server) : Outcome :=
  match get_prop data "roomId" with
  | None => Throws st []
  | Some roomId =>
    if negb (isValidRoomId roomId) then
      Returns st [ToSender "room-not-found" []]
    else
      match rooms st !! as_string roomId with
      | None => Returns st [ToSender "room-not-found" []]
      | Some room =>
        let roomInfo := JObj [("exists", JBool true);
                              ("isProtected", JBool (truthy (passwordHash room)));
                              ("hasUsers", JBool (0 <? size (users room))%nat)] in
        Returns st [ToSender "room-info" [roomInfo]]
      end
  end.

(** [socket.on('verify-password', ({ roomId, passwordHash }) => ...)] *)
Definition on_verify_password (data : JsVal) (st : Server) : Outcome :=
  match get_prop data "roomId", get_prop data "passwordHash" with
  | Some roomId, Some hash =>
    if negb (isValidRoomId roomId) || negb (is_type hash TString) then
      Returns st [ToSender "password-verified" [JObj [("valid", JBool false)]]]
    else
      match rooms st !! as_string roomId with
      | None =>
        Returns st [ToSender "password-verified" [JObj [("valid", JBool false)]]]
      | Some room =>
        let isValid := strict_eq (passwordHash room) hash in
        Returns st [ToSender "password-verified" [JObj [("valid", JBool isValid)]]]
      end
  | _, _ => Throws st []
  end.

(** The second argument of the join-room handler, as
    [if (callback) callback(...)] takes it: nothing, or a value that is
    falsy; the function socket.io passes when the client asked for an
    acknowledgement; any other truthy value, which cannot be called. *)
Inductive Callback : Type :=
| NoCallback
| AckFunction
| NotCallable.

(** [if (callback) callback(response)], reached in state [st] after
    [sent]; [later] is what the handler sends once the call is over. *)
Definition if_callback (callback : Callback) (response : JsVal)
    (st : Server) (sent later : list Emission) : Outcome :=
  match callback with
  | NoCallback => Returns st (sent ++ later)%list
  | AckFunction => Returns st (sent ++ Ack response :: later)%list
  | NotCallable => Throws st sent
  end.

Definition new_room (hash : JsVal) (now : Z) : Room := mkRoom ∅ hash now.

(** The second half of the join-room handler, from [isValidRoomId] on.
    Either branch sets the entry only when the Map has none: its key then
    goes last in the order of the Map. *)
Definition join_checked (sid : string) (now : Z) (callback : Callback)
    (roomId hash isProtected : JsVal) (st : Server) : Outcome :=
  if negb (isValidRoomId roomId) then
    if_callback callback
      (JObj [("success", JBool false); ("error", JStr "Invalid room ID")])
      st [ToSender "error" [JStr "Invalid room ID format"]] []
  else
    let id := as_string roomId in
    let rooms1 :=
      if truthy isProtected && truthy hash then
        match rooms st !! id with
        | None => <[id := new_room hash now]> (rooms st)
        | Some _ => rooms st
        end
      else
        match rooms st !! id with
        | None => <[id := new_room JNull now]> (rooms st)
        | Some _ => rooms st
        end in
    let order1 :=
      match rooms st !! id with
      | None => (roomOrder st ++ [id])%list
      | Some _ => roomOrder st
      end in
    let joined1 := socket_join sid id (joined st) in
    match rooms1 !! id with
    | None => Throws (mkServer rooms1 joined1 order1) []
    | Some room =>
      let room1 := mkRoom ({[sid]} ∪ users room) (passwordHash room)
                          (createdAt room) in
      if_callback callback
        (JObj [("success", JBool true); ("roomId", roomId)])
        (mkServer (<[id := room1]> rooms1) joined1 order1)
        [] [ToRoom id "user-joined" [JStr sid]]
    end.

(** [socket.on('join-room', (data, callback) => ...)] *)
Definition on_join_room (sid : string) (now : Z) (data : JsVal)
    (callback : Callback) (st : Server) : Outcome :=
  let invalid_data :=
    if_callback callback
      (JObj [("success", JBool false); ("error", JStr "Invalid data")])
      st [ToSender "error" [JStr "Invalid join-room data"]] [] in
  if is_type data TString then
    join_checked sid now callback data JNull (JBool false) st
  else if is_type data TObject then
    match get_prop data "roomId" with
    | None => Throws st []
    | Some roomId =>
      if truthy roomId then
        match get_prop data "passwordHash", get_prop data "isProtected" with
        | Some hash, Some isProtected =>
          join_checked sid now callback roomId
            (js_or hash JNull) (js_or isProtected (JBool false)) st
        | _, _ => Throws st []
        end
      else invalid_data
    end
  else invalid_data.

(** [offer] and [answer]: the relayed object is [{ sdp, from }]. *)
Definition relay_sdp (event : string) (sid : string) (data : JsVal)
    (st : Server) : Outcome :=
  if negb (isValidSocketData data) then Returns st []
  else
    match get_prop data "sdp", get_prop data "roomId" with
    | Some sdp, Some roomId =>
      if negb (truthy sdp) then Returns st []
      else
        Returns st [ToRoom (as_string roomId) event
                      [JObj [("sdp", sdp); ("from", JStr sid)]]]
    | _, _ => Throws st []
    end.

Definition on_offer : string → JsVal → Server → Outcome := relay_sdp "offer".

Definition on_answer : string → JsVal → Server → Outcome := relay_sdp "answer".

Definition on_ice_candidate (sid : string) (data : JsVal) (st : Server)
  : Outcome :=
  if negb (isValidSocketData data) then Returns st []
  else
    match get_prop data "candidate", get_prop data "roomId" with
    | Some candidate, Some roomId =>
      if negb (truthy candidate) then Returns st []
      else
        Returns st [ToRoom (as_string roomId) "ice-candidate"
                      [JObj [("candidate", candidate); ("from", JStr sid)]]]
    | _, _ => Throws st []
    end.

(** [typeof size !== 'number' || size < 0 || size > 10 * 1024 * 1024 * 1024] *)
Definition bad_size (size : JsVal) : bool :=
  match size with
  | JNum n => num_lt n (JFin 0) || num_lt (JFin MAX_FILE_SIZE) n
  | _ => true
  end.

Definition on_file_meta (sid : string) (data : JsVal) (st : Server)
  : Outcome :=
  if negb (isValidSocketData data) then Returns st []
  else
    match get_prop data "metadata", get_prop data "roomId" with
    | Some metadata, Some roomId =>
      if negb (truthy metadata) || negb (is_type metadata TObject) then
        Returns st []
      else
        match get_prop metadata "name", get_prop metadata "size" with
        | Some name, Some size =>
          if negb (is_type name TString) || bad_size size then Returns st []
          else Returns st [ToRoom (as_string roomId) "file-meta" [metadata]]
        | _, _ => Throws st []
        end
    | _, _ => Throws st []
    end.

(** [transfer-done] and [transfer-confirmed]: a bare event. *)
Definition relay_status (event : string) (sid : string) (data : JsVal)
    (st : Server) : Outcome :=
  if negb (isValidSocketData data) then Returns st []
  else
    match get_prop data "roomId" with
    | Some roomId => Returns st [ToRoom (as_string roomId) event []]
    | None => Throws st []
    end.

Definition on_transfer_done : string → JsVal → Server → Outcome :=
  relay_status "transfer-done".

Definition on_transfer_confirmed : string → JsVal → Server → Outcome :=
  relay_status "transfer-confirmed".

(** One turn of the [rooms.forEach] of the disconnect handler: what is
    left of the entry ([None] when the room is deleted). *)
Definition drop_user (sid : string) (room : Room) : option Room :=
  if bool_decide (sid ∈ users room) then
    let remaining := users room ∖ {[sid]} in
    if (size remaining =? 0)%nat then None
    else Some (mkRoom remaining (passwordHash room) (createdAt room))
  else Some room.

(** [socket.on('disconnect', ...)], after socket.io has taken the socket
    out of its rooms. [rooms.forEach] visits the rooms in the order of the
    Map, and the notices go out in that order, one for each room whose
    [users] has the socket; the rooms it deletes leave the order. *)
Definition on_disconnect (sid : string) (st : Server) : Outcome :=
  let left :=
    filter (λ roomId, sid ∈ from_option users ∅ (rooms st !! roomId))
           (roomOrder st) in
  let rooms1 := omap (drop_user sid) (rooms st) in
  Returns
    (mkServer rooms1 (leave_all sid (joined st))
       (filter (λ roomId, is_Some (rooms1 !! roomId)) (roomOrder st)))
    ((λ roomId, ToRoom roomId "user-left" [JObj [("userId", JStr sid)]])
       <$> left).

(** ** The room sweep *)

(** [age > ROOM_TIMEOUT && room.users.size === 0] *)
Definition swept (now : Z) (room : Room) : bool :=
  let age := now - createdAt room in
  (ROOM_TIMEOUT <? age)%Z && (size (users room) =? 0)%nat.

(** The callback of the 10-minute [setInterval]. *)
Definition room_cleanup (now : Z) (st : Server) : Server :=
  let rooms1 :=
    filter (λ kv : string * Room, swept now kv.2 = false) (rooms st) in
  mkServer rooms1 (joined st)
           (filter (λ roomId, is_Some (rooms1 !! roomId)) (roomOrder st)).

(** ** Rate limiting of connections *)

Definition RATE_LIMIT_WINDOW : Z := 60000.

Definition MAX_CONNECTIONS_PER_IP : Z := 10.

Record IpData : Type := mkIpData {
  count : Z;
  firstConnection : Z
}.

Inductive Admission : Type :=
| Next
| NextError (message : string).

(** The [io.use] middleware: [next()] or [next(new Error(...))]. *)
Definition rate_limit (clientIP : string) (now : Z)
    (connectionCounts : gmap string IpData)
  : Admission * gmap string IpData :=
  match connectionCounts !! clientIP with
  | None => (Next, <[clientIP := mkIpData 1 now]> connectionCounts)
  | Some ipData =>
    if now - firstConnection ipData <=? RATE_LIMIT_WINDOW then
      if MAX_CONNECTIONS_PER_IP <=? count ipData then
        (NextError "Rate limit exceeded", connectionCounts)
      else
        (Next, <[clientIP := mkIpData (count ipData + 1)
                                      (firstConnection ipData)]>
                 connectionCounts)
    else
      (Next, <[clientIP := mkIpData 1 now]> connectionCounts)
  end.

(** The callback of the one-minute [setInterval]. *)
Definition rate_cleanup (now : Z) (connectionCounts : gmap string IpData)
  : gmap string IpData :=
  filter (λ kv : string * IpData,
            ¬ (RATE_LIMIT_WINDOW < now - firstConnection kv.2))
         connectionCounts.

(** What the limiter sees: a connection from an address, or a turn of its
    one-minute sweep. *)
Inductive RateEvent : Type :=
| Connect (clientIP : string) (now : Z)
| RateSweep (now : Z).

Definition event_time (e : RateEvent) : Z :=
  match e with
  | Connect _ now => now
  | RateSweep now => now
  end.

(** The answers the middleware gives, in order, to the connections of
    [clientIP] along a list of events, and the map it leaves. *)
Fixpoint verdicts (clientIP : string) (events : list RateEvent)
    (connectionCounts : gmap string IpData)
  : list Admission * gmap string IpData :=
  match events with
  | [] => ([], connectionCounts)
  | Connect ip now :: later =>
    let '(a, cc1) := rate_limit ip now connectionCounts in
    let '(rest, cc2) := verdicts clientIP later cc1 in
    (if bool_decide (ip = clientIP) then a :: rest else rest, cc2)
  | RateSweep now :: later =>
    verdicts clientIP later (rate_cleanup now connectionCounts)
  end.

(** The answer to the connection number [k] (from 0) of a window. *)
Definition expected (k : nat) : Admission :=
  if (k <? 10)%nat then Next else NextError "Rate limit exceeded".

(** ** The server as a transition system *)

Inductive Message : Type :=
| CheckRoom (data : JsVal)
| VerifyPassword (data : JsVal)
| JoinRoom (now : Z) (data : JsVal) (callback : Callback)
| Offer (data : JsVal)
| Answer (data : JsVal)
| IceCandidate (data : JsVal)
| FileMeta (data : JsVal)
| TransferDone (data : JsVal)
| TransferConfirmed (data : JsVal).

(** The handler registered for each message, run for socket [sid]. *)
Definition handle (sid : string) (m : Message) (st : Server) : Outcome :=
  match m with
  | CheckRoom data => on_check_room data st
  | VerifyPassword data => on_verify_password data st
  | JoinRoom now data callback => on_join_room sid now data callback st
  | Offer data => on_offer sid data st
  | Answer data => on_answer sid data st
  | IceCandidate data => on_ice_candidate sid data st
  | FileMeta data => on_file_meta sid data st
  | TransferDone data => on_transfer_done sid data st
  | TransferConfirmed data => on_transfer_confirmed sid data st
  end.

Inductive Event : Type :=
| Receive (sid : string) (m : Message)
| Disconnect (sid : string)
| Sweep (now : Z).

Definition step (e : Event) (st : Server) : Outcome :=
  match e with
  | Receive sid m => handle sid m st
  | Disconnect sid => on_disconnect sid st
  | Sweep now => Returns (room_cleanup now st) []
  end.

(** The states the server goes through, from the empty registry. A
    [TypeError] no handler catches ends the run; the state it would leave
    is one the server reaches anyway ([throw_state_reachable]). *)
Inductive reachable : Server → Prop :=
| reachable_initial : reachable initial
| reachable_step st e st' out :
    reachable st → step e st = Returns st' out → reachable st'.

(** The registry and socket.io record the same members for every room. *)
Definition agrees (st : Server) : Prop :=
  ∀ r, members (joined st) r = room_users st r.

(** ** What a payload carries *)

Definition payload_of (m : Message) : JsVal :=
  match m with
  | CheckRoom data | VerifyPassword data | JoinRoom _ data _ | Offer data
  | Answer data | IceCandidate data | FileMeta data | TransferDone data
  | TransferConfirmed data => data
  end.

(** The payload is an object whose [roomId] is the string [s]. *)
Definition names_room (data : JsVal) (s : string) : Prop :=
  get_prop data "roomId" = Some (JStr s).

(** The message gives [s] as its room id: in the [roomId] of its payload,
    or, for join-room, also as the bare payload. *)
Definition supplies_room_id (m : Message) (s : string) : Prop :=
  names_room (payload_of m) s ∨
  match m with
  | JoinRoom _ data _ => data = JStr s
  | _ => False
  end.

(** [passwordHash] and [isProtected] of a join-room payload; the bare
    string form has neither. *)
Definition supplied_hash (data : JsVal) : JsVal :=
  match data with
  | JObj fields => assoc "passwordHash" fields
  | _ => JUndefined
  end.

Definition supplied_flag (data : JsVal) : JsVal :=
  match data with
  | JObj fields => assoc "isProtected" fields
  | _ => JUndefined
  end.

(** The [roomId] of an object payload. *)
Definition supplied_room_id (data : JsVal) : JsVal :=
  match data with
  | JObj fields => assoc "roomId" fields
  | _ => JUndefined
  end.

(** [!!room.passwordHash], as check-room reports it. *)
Definition is_protected (room : Room) : bool := truthy (passwordHash room).

(** The messages that are relayed to a room. *)
Definition relay_event (m : Message) : option string :=
  match m with
  | Offer _ => Some "offer"
  | Answer _ => Some "answer"
  | IceCandidate _ => Some "ice-candidate"
  | FileMeta _ => Some "file-meta"
  | TransferDone _ => Some "transfer-done"
  | TransferConfirmed _ => Some "transfer-confirmed"
  | _ => None
  end.

(** The entry of room [id] after a join: the room that was there, or a new
    one, with the joining socket added. *)
Definition room_after_join (sid : string) (now : Z) (hash isProtected : JsVal)
    (st : Server) (id : string) : Room :=
  match rooms st !! id with
  | Some room => mkRoom ({[sid]} ∪ users room) (passwordHash room) (createdAt room)
  | None =>
    mkRoom ({[sid]} ∪ ∅)
      (if truthy isProtected && truthy hash then hash else JNull) now
  end.

(** The order of the Map after a join to room [id]. *)
Definition order_after_join (st : Server) (id : string) : list string :=
  match rooms st !! id with
  | Some _ => roomOrder st
  | None => (roomOrder st ++ [id])%list
  end.

(** The state a join of socket [sid] to room [id] leaves. *)
Definition state_after_join (sid : string) (now : Z) (hash isProtected : JsVal)
    (st : Server) (id : string) : Server :=
  mkServer (<[id := room_after_join sid now hash isProtected st id]> (rooms st))
           (socket_join sid id (joined st))
           (order_after_join st id).

(** The order of the Map lists its keys, each once. *)
Definition order_lists_rooms (st : Server) : Prop :=
  NoDup (roomOrder st) ∧ ∀ r, r ∈ roomOrder st ↔ is_Some (rooms st !! r).

(** ** What the handlers answer *)

(** The state a handler leaves, and what it has sent, however it ends. *)
Definition state_after (o : Outcome) : Server :=
  match o with
  | Returns st _ => st
  | Throws st _ => st
  end.

Definition sent_by (o : Outcome) : list Emission :=
  match o with
  | Returns _ out => out
  | Throws _ out => out
  end.

(** The answer of verify-password. *)
Definition password_verified (valid : bool) : Emission :=
  ToSender "password-verified" [JObj [("valid", JBool valid)]].

(** How join-room ends when it lets socket [sid] into room [id], leaving
    state [st']: the acknowledgement, when one was asked for, then the
    notice to the room; a second argument that cannot be called ends the
    handler before either is sent. *)
Definition join_accepted (callback : Callback) (st' : Server)
    (sid id : string) : Outcome :=
  match callback with
  | NoCallback => Returns st' [ToRoom id "user-joined" [JStr sid]]
  | AckFunction =>
    Returns st' [Ack (JObj [("success", JBool true); ("roomId", JStr id)]);
                 ToRoom id "user-joined" [JStr sid]]
  | NotCallable => Throws st' []
  end.

(** How join-room ends when it refuses the payload, in state [st]: the
    [error] event, then the acknowledgement, when one was asked for; a
    second argument that cannot be called ends the handler after the
    event. *)
Definition join_refused (callback : Callback) (st : Server)
    (event_msg ack_msg : string) : Outcome :=
  match callback with
  | NoCallback => Returns st [ToSender "error" [JStr event_msg]]
  | AckFunction =>
    Returns st [ToSender "error" [JStr event_msg];
                Ack (JObj [("success", JBool false); ("error", JStr ack_msg)])]
  | NotCallable => Throws st [ToSender "error" [JStr event_msg]]
  end.

(** ** Runs *)

(** The state after a list of events, when no handler throws. *)
Fixpoint run (events : list Event) (st : Server) : option Server :=
  match events with
  | [] => Some st
  | e :: later =>
    match step e st with
    | Returns st' _ => run later st'
    | Throws _ _ => None
    end
  end.

(** Two sockets have joined the unprotected room [ABCDEFGH], the first at
    time 7. *)
Definition two_peers : Server :=
  mkServer {[ "ABCDEFGH" := mkRoom {[ "sock1"; "sock2" ]} JNull 7 ]}
           {[ "ABCDEFGH" := {[ "sock1"; "sock2" ]} ]} ["ABCDEFGH"].

(** ** What is relayed *)

(** A number that is neither below 0 nor above 10 GiB. The two
    comparisons of the handler are both false on [NaN], which no JSON
    payload carries. *)
Definition size_in_range (n : JsNum) : Prop :=
  match n with
  | JFin q => (0 <= q)%Q ∧ (q <= MAX_FILE_SIZE)%Q
  | JNaN => True
  | JNegInf | JPosInf => False
  end.

(** The file-meta payloads the handler relays: an object with a
    well-formed room id and a [metadata] object whose [name] is a string
    and whose [size] is a number in range. *)
Definition relayable_file_meta (data : JsVal) : Prop :=
  ∃ id metadata name n,
    names_room data id ∧ room_id_regex id = true ∧
    get_prop data "metadata" = Some metadata ∧
    get_prop metadata "name" = Some (JStr name) ∧
    get_prop metadata "size" = Some (JNum n) ∧ size_in_range n.

(** The file-meta payloads the specification says are relayed: as above,
    with a non-empty [name] and a [size] from 0 to 10 GiB. *)
Definition specified_file_meta (data : JsVal) : Prop :=
  ∃ id metadata name q,
    names_room data id ∧ room_id_regex id = true ∧
    get_prop data "metadata" = Some metadata ∧
    get_prop metadata "name" = Some (JStr name) ∧ name ≠ "" ∧
    get_prop metadata "size" = Some (JNum (JFin q)) ∧
    (0 <= q)%Q ∧ (q <= MAX_FILE_SIZE)%Q.

(** The handler passes the metadata of the payload, as it is, to the room
    the payload names. *)
Definition file_meta_relayed (sid : string) (data : JsVal) (st : Server) : Prop :=
  ∃ id metadata,
    names_room data id ∧ get_prop data "metadata" = Some metadata ∧
    on_file_meta sid data st = Returns st [ToRoom id "file-meta" [metadata]].

(** The handler sends nothing and changes nothing. *)
Definition file_meta_dropped (sid : string) (data : JsVal) (st : Server) : Prop :=
  on_file_meta sid data st = Returns st [].

(** A relayed message with the field its handler asks for. *)
Definition well_formed_relay (m : Message) : Prop :=
  match m with
  | Offer data | Answer data =>
    ∃ sdp, get_prop data "sdp" = Some sdp ∧ truthy sdp = true
  | IceCandidate data =>
    ∃ candidate, get_prop data "candidate" = Some candidate ∧ truthy candidate = true
  | FileMeta data => relayable_file_meta data
  | TransferDone _ | TransferConfirmed _ => True
  | _ => False
  end.

(** What the relay of message [m] from socket [sid] carries. *)
Definition relay_carries (sid : string) (m : Message) (args : list JsVal) : Prop :=
  match m with
  | Offer data | Answer data =>
    ∃ sdp, get_prop data "sdp" = Some sdp ∧
           args = [JObj [("sdp", sdp); ("from", JStr sid)]]
  | IceCandidate data =>
    ∃ candidate, get_prop data "candidate" = Some candidate ∧
                 args = [JObj [("candidate", candidate); ("from", JStr sid)]]
  | FileMeta data => ∃ metadata, get_prop data "metadata" = Some metadata ∧
                                 args = [metadata]
  | _ => args = []
  end.

(** ** Sample payloads and states *)

Definition sample_bad_join : Message :=
  JoinRoom 0 (JObj [("roomId", JStr "not valid!")]) AckFunction.

Definition sample_protected_join : JsVal :=
  JObj [("roomId", JStr "ABCDEFGH"); ("passwordHash", JStr "5e88");
        ("isProtected", JBool true)].

Definition sample_wrong_hash_join : JsVal :=
  JObj [("roomId", JStr "ABCDEFGH"); ("passwordHash", JStr "wrong");
        ("isProtected", JBool true)].

Definition sample_null_query : JsVal :=
  JObj [("roomId", JStr "ABCDEFGH"); ("passwordHash", JNull)].

Definition sample_offer : Message :=
  Offer (JObj [("roomId", JStr "ABCDEFGH"); ("sdp", JStr "v=0")]).

Definition sample_file_meta : JsVal :=
  JObj [("roomId", JStr "ABCDEFGH");
        ("metadata", JObj [("name", JStr "a.bin"); ("size", JNum (JFin 5))])].

Definition sample_empty_name : JsVal :=
  JObj [("roomId", JStr "ABCDEFGH");
        ("metadata", JObj [("name", JStr ""); ("size", JNum (JFin 0))])].

(** Socket [sock1] has created the protected room [ABCDEFGH]. *)
Definition one_protected : Server :=
  mkServer {[ "ABCDEFGH" := mkRoom {[ "sock1" ]} (JStr "5e88") 7 ]}
           {[ "ABCDEFGH" := {[ "sock1" ]} ]} ["ABCDEFGH"].

(** An empty room created at time 7. *)
Definition one_stale : Server :=
  mkServer {[ "ABCDEFGH" := mkRoom ∅ JNull 7 ]} ∅ ["ABCDEFGH"].

(** Socket [sock1] alone in the unprotected room [ABCDEFGH]. *)
Definition one_peer : Server :=
  mkServer {[ "ABCDEFGH" := mkRoom {[ "sock1" ]} JNull 7 ]}
           {[ "ABCDEFGH" := {[ "sock1" ]} ]} ["ABCDEFGH"].

(** [sock1] has left [two_peers]. *)
Definition peer_left : Server :=
  mkServer {[ "ABCDEFGH" := mkRoom {[ "sock2" ]} JNull 7 ]}
           {[ "ABCDEFGH" := {[ "sock2" ]} ]} ["ABCDEFGH"].

(** Ten more connections of [10.0.0.1] within the minute that starts at
    time 1000, among a connection of another address and a turn of the
    sweep. *)
Definition sample_burst : list RateEvent :=
  [Connect "10.0.0.1" 1001; Connect "10.0.0.2" 1500; Connect "10.0.0.1" 2000;
   Connect "10.0.0.1" 3000; Connect "10.0.0.1" 4000; Connect "10.0.0.1" 5000;
   RateSweep 30000; Connect "10.0.0.1" 31000; Connect "10.0.0.1" 32000;
   Connect "10.0.0.1" 33000; Connect "10.0.0.1" 34000; Connect "10.0.0.1" 61000].

(** The answer of check-room about a room that exists. *)
Definition room_info (isProtected hasUsers : bool) : Emission :=
  ToSender "room-info"
    [JObj [("exists", JBool true); ("isProtected", JBool isProtected);
           ("hasUsers", JBool hasUsers)]].

Definition sample_good_query : JsVal :=
  JObj [("roomId", JStr "ABCDEFGH"); ("passwordHash", JStr "5e88")].

(** A join-room payload whose [roomId] is a number. *)
Definition sample_numeric_join : JsVal :=
  JObj [("roomId", JNum (JFin 12345678))].

(** ** Runs of the limiter *)

(** The map after one event of the limiter. *)
Definition rate_step (connectionCounts : gmap string IpData) (e : RateEvent)
  : gmap string IpData :=
  match e with
  | Connect clientIP now => (rate_limit clientIP now connectionCounts).2
  | RateSweep now => rate_cleanup now connectionCounts
  end.

(** The map after a list of events, from the empty map the server starts
    with. *)
Definition rate_run (events : list RateEvent) : gmap string IpData :=
  foldl rate_step ∅ events.

(** ** The TURN configuration endpoint *)

(** [process.env]: each variable is a string or is not set. *)
Record Env : Type := mkEnv {
  TURN_SERVER_URL : option string;
  TURN_SERVER_USERNAME : option string;
  TURN_SERVER_PASSWORD : option string;
  TURN_SERVER_TLS_URL : option string
}.

Definition env_value (v : option string) : JsVal :=
  match v with
  | Some s => JStr s
  | None => JUndefined
  end.

(** [turnConfig.iceServers] when the answer is sent: the two STUN servers,
    and what the two [push] calls add. *)
Definition iceServers (env : Env) : list JsVal :=
  let url := env_value (TURN_SERVER_URL env) in
  let username := env_value (TURN_SERVER_USERNAME env) in
  let password := env_value (TURN_SERVER_PASSWORD env) in
  let tls := env_value (TURN_SERVER_TLS_URL env) in
  let stun := [JObj [("urls", JStr "stun:stun.l.google.com:19302")];
               JObj [("urls", JStr "stun:stun.services.mozilla.com")]] in
  if truthy url && truthy username && truthy password then
    stun
    ++ [JObj [("urls", url); ("username", username); ("credential", password)]]
    ++ (if truthy tls
        then [JObj [("urls", tls); ("username", username);
                    ("credential", password)]]
        else [])
  else stun.

(** The body of [app.get('/api/turn-config', ...)]: what [res.json]
    sends. *)
Definition turnConfig (env : Env) : JsVal :=
  JObj [("iceServers", JArr (iceServers env));
        ("iceCandidatePoolSize", JNum (JFin 10))].

(** [rtcConfig] as the pages have it before [loadTurnConfig] runs. *)
Definition rtcConfig : JsVal :=
  JObj [("iceServers",
         JArr [JObj [("urls", JStr "stun:stun.l.google.com:19302")];
               JObj [("urls", JStr "stun:stun.services.mozilla.com")]]);
        ("iceCandidatePoolSize", JNum (JFin 10))].

(** The three variables a TURN entry needs are set and not empty. *)
Definition turn_configured (env : Env) : Prop :=
  ∃ url username password,
    TURN_SERVER_URL env = Some url ∧ url ≠ "" ∧
    TURN_SERVER_USERNAME env = Some username ∧ username ≠ "" ∧
    TURN_SERVER_PASSWORD env = Some password ∧ password ≠ "".

(** A password is set, the user name is not. *)
Definition sample_env : Env :=
  mkEnv (Some "turn:turn.example.org:3478") None (Some "secret") (Some "turns:x").

(** ** The shared script of the pages *)

(** [${n}] for an integer [n]: its decimal digits, with a minus sign when
    it is negative. *)
Definition show_int (n : Z) : string := pretty n.


(** [formatTimeout(ms)] for an integer [ms]. [Math.floor] of a quotient is
    the quotient rounded down; [%] takes the sign of the dividend. *)
Definition formatTimeout (ms : Z) : string :=
  let minutes := ms `div` 60000 in
  let seconds := (ms `rem` 60000) `div` 1000 in
  if 0 <? minutes then
    if 0 <? seconds then show_int minutes +:+ "m " +:+ show_int seconds +:+ "s"
    else show_int minutes +:+ "m"
  else show_int seconds +:+ "s".

Definition CLIENT_MAX_FILE_SIZE : N := 10 * 1024 * 1024 * 1024.

Definition ALLOWED_FILE_TYPES : list string := [].

(** What [validateFile] reads of a [File]; [size] is a number of bytes. *)
Record File : Type := mkFile {
  file_name : string;
  file_size : N;
  file_type : string
}.

(** [validateFile(file)]: its result and the message it passes to
    [showError], if any. The size in the message is
    [(MAX_FILE_SIZE / (1024*1024*1024)).toFixed(1)], a constant. *)
Definition validateFile (file : option File) : bool * option string :=
  match file with
  | None => (false, Some "No file selected")
  | Some f =>
    if (CLIENT_MAX_FILE_SIZE <? file_size f)%N then
      (false, Some "File too large. Maximum size is 10.0GB")
    else if (0 <? length ALLOWED_FILE_TYPES)%nat
            && negb (existsb (String.eqb (file_type f)) ALLOWED_FILE_TYPES) then
      (false, Some "File type not allowed")
    else (true, None)
  end.

(** The number a file size is in a payload. *)
Definition size_value (n : N) : JsVal := JNum (JFin (inject_Z (Z.of_N n))).

(** What [checkBrowserCompatibility] looks at: [window.RTCPeerConnection],
    ['showSaveFilePicker' in window], and [window.crypto] with its
    [getRandomValues]. *)
Record Browser : Type := mkBrowser {
  hasRTCPeerConnection : bool;
  hasShowSaveFilePicker : bool;
  hasGetRandomValues : bool
}.

(** [checkBrowserCompatibility()]: the warnings, in the order of its three
    tests. *)
Definition checkBrowserCompatibility (w : Browser) : list string :=
  (if negb (hasRTCPeerConnection w)
   then ["WebRTC is not supported in this browser. File transfer will not work."]
   else [])
  ++ (if negb (hasShowSaveFilePicker w)
      then ["Direct file saving is not supported in this browser. Files up to 4GB will be downloaded to your default download folder. For file transfer up to 10GB use Google Chrome or Microsoft Edge."]
      else [])
  ++ (if negb (hasGetRandomValues w)
      then ["Secure random number generation is not available. Room IDs may be less secure."]
      else []).

(** The three warnings, by what is missing. *)
Definition WEBRTC_WARNING : string :=
  "WebRTC is not supported in this browser. File transfer will not work.".

Definition SAVE_WARNING : string :=
  "Direct file saving is not supported in this browser. Files up to 4GB will be downloaded to your default download folder. For file transfer up to 10GB use Google Chrome or Microsoft Edge.".

Definition RANDOM_WARNING : string :=
  "Secure random number generation is not available. Room IDs may be less secure.".

(** [s.includes(needle)] *)
Fixpoint includes (needle s : string) : bool :=
  String.prefix needle s ||
  match s with
  | EmptyString => false
  | String _ rest => includes needle rest
  end.

(** [filteredWarnings] of [showCompatibilityWarnings]; [isMobile] is the
    outcome of its test of the user agent and of the window width. *)
Definition filteredWarnings (w : Browser) (isMobile : bool) : list string :=
  filter (λ warning,
            negb (isMobile && includes "Direct file saving is not supported" warning)
            = true)
         (checkBrowserCompatibility w).

(** One digit in base 36. *)
Definition digit36 (d : N) : Ascii.ascii :=
  if (d <? 10)%N then Ascii.ascii_of_N (48 + d) else Ascii.ascii_of_N (87 + d).

Fixpoint to_digits36 (fuel : nat) (n : N) (acc : string) : string :=
  match fuel with
  | O => acc
  | S fuel' =>
    let acc' := String (digit36 (n `mod` 36)%N) acc in
    if (n `div` 36 =? 0)%N then acc' else to_digits36 fuel' (n `div` 36)%N acc'
  end.

(** [n.toString(36)] for an integer [n] that is not negative. *)
Definition toString36 (n : N) : string :=
  to_digits36 (S (N.to_nat (N.log2 n))) n "".

(** [s.substring(a, b)] for [a <= b]. *)
Definition js_substring (a b : nat) (s : string) : string :=
  String.substring a (b - a) s.

(** [generateSecureRoomId()]. [secure] says whether [window.crypto] and
    its [getRandomValues] are there; [array] is the [Uint8Array(12)] after
    [getRandomValues]; [random36] is [Math.random().toString(36)] and [now]
    is [Date.now()]. *)
Definition generateSecureRoomId (secure : bool) (array : list N)
    (random36 : string) (now : N) : string :=
  if secure then
    js_substring 0 11 (String.concat "" (toString36 <$> array))
  else
    js_substring 2 11 random36 +:+ toString36 now.

(** A file of exactly 10 GiB, and the file-meta that announces it. *)
Definition sample_largest_file : File :=
  mkFile "disk.img" CLIENT_MAX_FILE_SIZE "application/octet-stream".

Definition sample_largest_meta : JsVal :=
  JObj [("roomId", JStr "ABCDEFGH");
        ("metadata", JObj [("name", JStr "disk.img");
                           ("size", size_value CLIENT_MAX_FILE_SIZE)])].

(** * Properties *)

(** ** Payloads *)

Ltac unfold_handlers :=
  unfold on_check_room, on_verify_password, on_offer, on_answer, relay_sdp,
    on_ice_candidate, on_file_meta, on_transfer_done, on_transfer_confirmed,
    relay_status in *.

Lemma names_room_obj data s :
  names_room data s → ∃ fields, data = JObj fields ∧ assoc "roomId" fields = JStr s.
Proof.
  unfold names_room. destruct data; simpl; intros H; try discriminate.
  injection H as H. eauto.
Qed.

Lemma valid_socket_data data s :
  names_room data s → isValidSocketData data = room_id_regex s.
Proof.
  intros H. destruct (names_room_obj _ _ H) as (fields & -> & Hs).
  unfold isValidSocketData. simpl. by rewrite Hs.
Qed.

Lemma regex_nonempty s : room_id_regex s = true → s ≠ "".
Proof. intros H ->. discriminate. Qed.

Lemma truthy_str s : s ≠ "" → truthy (JStr s) = true.
Proof.
  intros H. simpl. destruct (String.eqb_spec s ""); [contradiction | done].
Qed.

(** ** Room id validation *)

(** C1. A message that gives as its room id a string not matching
    [^[a-zA-Z0-9]{8,15}$] leaves the server state as it is, whatever the
    handler. check-room answers [room-not-found] and verify-password
    answers [{valid: false}]. join-room sends the [error] event, 'Invalid
    room ID format' (or 'Invalid join-room data' when the [roomId] of its
    object is the empty string), and then, when its second argument is the
    acknowledgement function, calls it with [{success: false, error}]; a
    second argument that is truthy and not a function makes that call
    throw, after the event. The six relayed messages are dropped with
    nothing sent. *)
Theorem invalid_room_id_rejected (s sid : string) (m : Message) (st : Server) :
  room_id_regex s = false →
  supplies_room_id m s →
  state_after (handle sid m st) = st ∧
  match m with
  | CheckRoom _ => handle sid m st = Returns st [ToSender "room-not-found" []]
  | VerifyPassword _ =>
    handle sid m st
    = Returns st [ToSender "password-verified" [JObj [("valid", JBool false)]]]
  | JoinRoom _ data callback =>
    let no_room_id := is_type data TObject && bool_decide (s = "") in
    let event_msg :=
      if no_room_id then "Invalid join-room data" else "Invalid room ID format" in
    let ack_msg := if no_room_id then "Invalid data" else "Invalid room ID" in
    handle sid m st
    = match callback with
      | NoCallback => Returns st [ToSender "error" [JStr event_msg]]
      | AckFunction =>
        Returns st [ToSender "error" [JStr event_msg];
                    Ack (JObj [("success", JBool false); ("error", JStr ack_msg)])]
      | NotCallable => Throws st [ToSender "error" [JStr event_msg]]
      end
  | _ => handle sid m st = Returns st []
  end.
Proof.
  intros Hbad Hsup.
  assert (Hcases :
    match m with
    | CheckRoom _ => handle sid m st = Returns st [ToSender "room-not-found" []]
    | VerifyPassword _ =>
      handle sid m st
      = Returns st [ToSender "password-verified" [JObj [("valid", JBool false)]]]
    | JoinRoom _ data callback =>
      handle sid m st
      = join_refused callback st
          (if is_type data TObject && bool_decide (s = "")
           then "Invalid join-room data" else "Invalid room ID format")
          (if is_type data TObject && bool_decide (s = "")
           then "Invalid data" else "Invalid room ID")
    | _ => handle sid m st = Returns st []
    end).
  { destruct Hsup as [Hname | Hbare].
    - pose proof (valid_socket_data _ _ Hname) as Hdata.
      rewrite Hbad in Hdata.
      destruct (names_room_obj _ _ Hname) as (fields & Heq & Hs).
      destruct m; simpl in Heq, Hdata; subst data; simpl; unfold_handlers;
        try (rewrite Hdata; done).
      + simpl. by rewrite Hs; simpl; rewrite Hbad.
      + simpl. by rewrite Hs; simpl; rewrite Hbad.
      + unfold on_join_room. simpl. rewrite Hs.
        destruct (String.eqb_spec s "") as [-> | Hne].
        * simpl. by destruct callback.
        * rewrite (truthy_str s Hne).
          rewrite bool_decide_eq_false_2 by done.
          unfold join_checked. simpl. rewrite Hbad. simpl. by destruct callback.
    - destruct m; try contradiction. subst data. simpl.
      unfold on_join_room, join_checked. simpl. rewrite Hbad. simpl.
      by destruct callback. }
  split.
  - destruct m; try (by rewrite Hcases). rewrite Hcases. by destruct callback.
  - destruct m; done.
Qed.

Lemma invalid_room_id_rejected_witness :
  room_id_regex "not valid!" = false ∧
  supplies_room_id sample_bad_join "not valid!" ∧
  state_after (handle "sock1" sample_bad_join initial) = initial ∧
  handle "sock1" sample_bad_join initial
  = Returns initial
      [ToSender "error" [JStr "Invalid room ID format"];
       Ack (JObj [("success", JBool false); ("error", JStr "Invalid room ID")])].
Proof.
  split; [reflexivity |]. split; [left; reflexivity |].
  apply (invalid_room_id_rejected "not valid!" "sock1" sample_bad_join initial);
    [reflexivity | left; reflexivity].
Defined.

(** ** Joining and creating rooms *)

Lemma join_accepted_state callback st' sid id :
  state_after (join_accepted callback st' sid id) = st'.
Proof. by destruct callback. Qed.

Lemma join_refused_state callback st event_msg ack_msg :
  state_after (join_refused callback st event_msg ack_msg) = st.
Proof. by destruct callback. Qed.

(** Whether join-room returns or throws is up to its second argument. *)
Lemma join_accepted_ends callback st' sid id :
  join_accepted callback st' sid id
  = match callback with
    | NotCallable => Throws st' (sent_by (join_accepted callback st' sid id))
    | _ => Returns st' (sent_by (join_accepted callback st' sid id))
    end.
Proof. by destruct callback. Qed.

Lemma join_checked_valid sid now callback id hash isProtected st :
  room_id_regex id = true →
  join_checked sid now callback (JStr id) hash isProtected st
  = join_accepted callback (state_after_join sid now hash isProtected st id)
      sid id.
Proof.
  intros Hid.
  unfold join_checked, state_after_join, room_after_join, order_after_join.
  simpl. rewrite Hid. simpl.
  destruct (rooms st !! id) as [room |] eqn:Hroom.
  - destruct (truthy isProtected && truthy hash); rewrite Hroom;
      by destruct callback.
  - destruct (truthy isProtected && truthy hash);
      rewrite lookup_insert_eq, insert_insert_eq; by destruct callback.
Qed.

Lemma js_or_truthy a b : truthy b = false → truthy (js_or a b) = truthy a.
Proof. unfold js_or. destruct (truthy a) eqn:Ha; done. Qed.

Lemma stored_hash flag hash :
  (if truthy (js_or flag (JBool false)) && truthy (js_or hash JNull)
   then js_or hash JNull else JNull)
  = (if truthy flag && truthy hash then hash else JNull).
Proof.
  rewrite !js_or_truthy by done. unfold js_or.
  destruct (truthy flag), (truthy hash); done.
Qed.

(** A join-room that gives a well-formed room id runs the second half of
    the handler on the hash and the flag of its payload. *)
Lemma on_join_room_valid sid now data callback st id :
  supplies_room_id (JoinRoom now data callback) id →
  room_id_regex id = true →
  on_join_room sid now data callback st
  = join_accepted callback
      (state_after_join sid now (supplied_hash data) (supplied_flag data) st id)
      sid id.
Proof.
  intros Hsup Hid.
  assert (Hroom : ∀ h f h' f',
    (if truthy f && truthy h then h else JNull)
    = (if truthy f' && truthy h' then h' else JNull) →
    state_after_join sid now h f st id = state_after_join sid now h' f' st id).
  { intros h f h' f' Heq. unfold state_after_join, room_after_join.
    destruct (rooms st !! id); [done | by rewrite Heq]. }
  destruct Hsup as [Hname | ->].
  - simpl in Hname. destruct (names_room_obj _ _ Hname) as (fields & -> & Hs).
    unfold on_join_room. simpl. rewrite Hs.
    rewrite (truthy_str id (regex_nonempty id Hid)).
    rewrite join_checked_valid by done.
    by rewrite (Hroom _ _ _ _ (stored_hash _ _)).
  - unfold on_join_room. simpl. by rewrite join_checked_valid.
Qed.

(** C2. A join-room with a well-formed room id leaves a room under that
    id, and returns unless its second argument is truthy and not a
    function (the call of it then throws, once the room is there). When
    there was no room, the new room stores the supplied hash exactly when
    both the [isProtected] flag and the hash of the call are truthy (the
    flag true, the hash a non-empty string) and stores [null] otherwise, so
    that it is protected exactly in that case; when there was one, its
    hash, its protection and its creation time are the ones it had. *)
Theorem join_room_creation (sid : string) (now : Z) (data : JsVal)
    (callback : Callback) (st : Server) (id : string) :
  supplies_room_id (JoinRoom now data callback) id →
  room_id_regex id = true →
  ∃ st' out room',
    on_join_room sid now data callback st
    = match callback with
      | NotCallable => Throws st' out
      | _ => Returns st' out
      end ∧
    rooms st' !! id = Some room' ∧
    match rooms st !! id with
    | None =>
      let protect := truthy (supplied_flag data) && truthy (supplied_hash data) in
      passwordHash room' = (if protect then supplied_hash data else JNull) ∧
      is_protected room' = protect ∧
      createdAt room' = now
    | Some room =>
      passwordHash room' = passwordHash room ∧
      is_protected room' = is_protected room ∧
      createdAt room' = createdAt room
    end.
Proof.
  intros Hsup Hid. rewrite (on_join_room_valid _ _ _ _ _ _ Hsup Hid).
  eexists _, _, _. split; [apply join_accepted_ends |]. simpl.
  split; [apply lookup_insert_eq |].
  unfold room_after_join, is_protected.
  destruct (rooms st !! id) as [room |]; simpl; [done |].
  split; [done |]. split; [| done].
  destruct (truthy (supplied_flag data)), (truthy (supplied_hash data)) eqn:Hh;
    done.
Qed.

Lemma join_room_creation_witness :
  supplies_room_id (JoinRoom 7 sample_protected_join AckFunction) "ABCDEFGH" ∧
  room_id_regex "ABCDEFGH" = true ∧
  ∃ st' out room',
    on_join_room "sock1" 7 sample_protected_join AckFunction initial
    = Returns st' out ∧
    rooms st' !! "ABCDEFGH" = Some room' ∧
    passwordHash room' = JStr "5e88" ∧
    is_protected room' = true ∧
    createdAt room' = 7.
Proof.
  split; [left; reflexivity |]. split; [reflexivity |].
  apply (join_room_creation "sock1" 7 sample_protected_join AckFunction initial
           "ABCDEFGH"); [left; reflexivity | reflexivity].
Defined.




(** ** Password verification *)

Lemma verify_password_lookup data st id hash :
  names_room data id →
  get_prop data "passwordHash" = Some hash →
  on_verify_password data st
  = Returns st
      [password_verified
         (room_id_regex id && is_type hash TString &&
          match rooms st !! id with
          | Some room => strict_eq (passwordHash room) hash
          | None => false
          end)].
Proof.
  intros Hname Hhash. unfold names_room in Hname.
  unfold on_verify_password, password_verified. rewrite Hname, Hhash. simpl.
  destruct (room_id_regex id); [| done]. simpl.
  destruct (is_type hash TString); [| done]. simpl.
  destruct (rooms st !! id); done.
Qed.

Lemma strict_eq_str h q : strict_eq (JStr h) (JStr q) = bool_decide (q = h).
Proof.
  simpl. destruct (String.eqb_spec h q) as [-> | Hne].
  - by rewrite bool_decide_eq_true_2.
  - rewrite bool_decide_eq_false_2; [done | congruence].
Qed.

Lemma strict_eq_null_string hash :
  is_type hash TString = true → strict_eq JNull hash = false.
Proof. by destruct hash. Qed.

(** C3. After a join-room has created room [id] with the hash [H], a
    verify-password for [id] with a string hash answers
    [password-verified] with [{valid: true}] when the hash is [H] and with
    [{valid: false}] when it is any other string. On any state,
    verify-password answers [password-verified] with [{valid: false}] when
    the room id has no room, when it is not well-formed, when the hash of
    the query is not a string, and when the room stores [null]. None of
    these changes the state. *)
Theorem verify_password_round_trip (sid : string) (now : Z)
    (callback : Callback) (st : Server) (id H : string) :
  room_id_regex id = true →
  H ≠ "" →
  rooms st !! id = None →
  let create := JObj [("roomId", JStr id); ("passwordHash", JStr H);
                      ("isProtected", JBool true)] in
  (∃ st' out,
     on_join_room sid now create callback st
     = match callback with
       | NotCallable => Throws st' out
       | _ => Returns st' out
       end ∧
     ∀ data q,
       names_room data id → get_prop data "passwordHash" = Some (JStr q) →
       on_verify_password data st'
       = Returns st'
           [ToSender "password-verified"
              [JObj [("valid", JBool (bool_decide (q = H)))]]]) ∧
  (∀ s data r hash,
     names_room data r → get_prop data "passwordHash" = Some hash →
     rooms s !! r = None ∨ room_id_regex r = false ∨ is_type hash TString = false
     ∨ (∃ room, rooms s !! r = Some room ∧ passwordHash room = JNull
                ∧ hash ≠ JNull) →
     on_verify_password data s
     = Returns s [ToSender "password-verified" [JObj [("valid", JBool false)]]]).
Proof.
  intros Hid HH Hnone create. split.
  - rewrite (on_join_room_valid sid now create callback st id
               (or_introl eq_refl) Hid).
    eexists _, _. split; [apply join_accepted_ends |].
    intros data q Hname Hq.
    rewrite (verify_password_lookup _ _ _ _ Hname Hq). simpl.
    pose proof (truthy_str H HH) as HT. simpl in HT.
    rewrite Hid, lookup_insert_eq. unfold room_after_join. rewrite Hnone.
    simpl. rewrite HT. simpl.
    by rewrite <- strict_eq_str.
  - intros s data r hash Hname Hhash Hcase.
    rewrite (verify_password_lookup _ _ _ _ Hname Hhash).
    destruct Hcase as [-> | [-> | [-> | (room & -> & Hnull & _)]]].
    + by rewrite andb_false_r.
    + done.
    + by rewrite andb_false_r.
    + rewrite Hnull. destruct (is_type hash TString) eqn:Hty.
      * by rewrite strict_eq_null_string, andb_false_r.
      * by rewrite andb_false_r.
Qed.

Lemma verify_password_round_trip_witness :
  room_id_regex "ABCDEFGH" = true ∧ "5e88" ≠ "" ∧
  rooms initial !! "ABCDEFGH" = None ∧
  ∃ st' out,
    on_join_room "sock1" 7 sample_protected_join AckFunction initial
    = Returns st' out ∧
    ∀ data q,
      names_room data "ABCDEFGH" →
      get_prop data "passwordHash" = Some (JStr q) →
      on_verify_password data st'
      = Returns st'
          [ToSender "password-verified"
             [JObj [("valid", JBool (bool_decide (q = "5e88")))]]].
Proof.
  split; [reflexivity |]. split; [discriminate |]. split; [reflexivity |].
  apply (verify_password_round_trip "sock1" 7 AckFunction initial "ABCDEFGH"
           "5e88"); [reflexivity | discriminate | reflexivity].
Defined.

(** C10. Against a room whose stored hash is [null], verify-password
    answers [{valid: false}] whatever the [passwordHash] of the query is,
    absent ([undefined]) included, and leaves the state as it is. *)
Theorem verify_password_unprotected (data : JsVal) (st : Server) (id : string)
    (room : Room) (hash : JsVal) :
  names_room data id →
  get_prop data "passwordHash" = Some hash →
  rooms st !! id = Some room →
  passwordHash room = JNull →
  on_verify_password data st = Returns st [password_verified false].
Proof.
  intros Hname Hhash Hroom Hnull.
  rewrite (verify_password_lookup _ _ _ _ Hname Hhash), Hroom, Hnull.
  destruct (is_type hash TString) eqn:Hty.
  - by rewrite strict_eq_null_string, andb_false_r.
  - by rewrite andb_false_r.
Qed.

Lemma verify_password_unprotected_witness :
  names_room sample_null_query "ABCDEFGH" ∧
  get_prop sample_null_query "passwordHash" = Some JNull ∧
  rooms two_peers !! "ABCDEFGH" = Some (mkRoom {[ "sock1"; "sock2" ]} JNull 7) ∧
  passwordHash (mkRoom {[ "sock1"; "sock2" ]} JNull 7) = JNull ∧
  on_verify_password sample_null_query two_peers
  = Returns two_peers [password_verified false].
Proof.
  split; [reflexivity |]. split; [reflexivity |]. split; [reflexivity |].
  split; [reflexivity |].
  apply (verify_password_unprotected sample_null_query two_peers "ABCDEFGH"
           (mkRoom {[ "sock1"; "sock2" ]} JNull 7) JNull); reflexivity.
Defined.

(** ** The registry and socket.io agree on who is in a room *)

Lemma size_zero (X : gset string) : (size X =? 0)%nat = true ↔ X = ∅.
Proof.
  rewrite Nat.eqb_eq. split.
  - intros H. by apply leibniz_equiv, size_empty_inv.
  - intros ->. apply size_empty.
Qed.

Lemma drop_user_users sid room :
  from_option users ∅ (drop_user sid room) = users room ∖ {[sid]}.
Proof.
  unfold drop_user. case_bool_decide as Hin.
  - destruct (size (users room ∖ {[sid]}) =? 0)%nat eqn:Hsize; [| done].
    apply size_zero in Hsize. by rewrite Hsize.
  - simpl. set_solver.
Qed.

Lemma room_users_lookup st r :
  room_users st r = from_option users ∅ (rooms st !! r).
Proof. unfold room_users. by destruct (rooms st !! r). Qed.

Lemma members_leave_all sid j r :
  members (leave_all sid j) r = members j r ∖ {[sid]}.
Proof.
  unfold members, leave_all. rewrite lookup_fmap.
  destruct (j !! r); simpl; set_solver.
Qed.

Lemma room_users_disconnect sid rs j o j' o' r :
  room_users (mkServer (omap (drop_user sid) rs) j' o') r
  = room_users (mkServer rs j o) r ∖ {[sid]}.
Proof.
  rewrite !room_users_lookup. simpl. rewrite lookup_omap.
  destruct (rs !! r) as [room |]; simpl.
  - apply drop_user_users.
  - set_solver.
Qed.

Lemma cleanup_lookup now st r :
  rooms (room_cleanup now st) !! r
  = match rooms st !! r with
    | Some room => if swept now room then None else Some room
    | None => None
    end.
Proof.
  unfold room_cleanup. simpl. rewrite map_lookup_filter.
  destruct (rooms st !! r) as [room |]; [| done].
  cbn [mbind option_bind snd]. destruct (swept now room); by case_guard.
Qed.

Lemma room_users_cleanup now st r :
  room_users (room_cleanup now st) r = room_users st r.
Proof.
  unfold room_users. rewrite cleanup_lookup.
  destruct (rooms st !! r) as [room |]; [| done].
  destruct (swept now room) eqn:Hs; [| done].
  apply andb_true_iff in Hs as [_ Hs]. by apply size_zero in Hs.
Qed.

(** How the second half of join-room ends, whatever its second
    argument. *)
Lemma join_checked_cases sid now roomId hash isProtected st :
  (∃ event_msg ack_msg, ∀ callback,
     join_checked sid now callback roomId hash isProtected st
     = join_refused callback st event_msg ack_msg) ∨
  (∃ id, room_id_regex id = true ∧ ∀ callback,
     join_checked sid now callback roomId hash isProtected st
     = join_accepted callback
         (state_after_join sid now hash isProtected st id) sid id).
Proof.
  destruct (isValidRoomId roomId) eqn:Hvalid.
  - right. destruct roomId; try discriminate. simpl in Hvalid.
    eexists. split; [done |]. intros callback. by apply join_checked_valid.
  - left. eexists _, _. intros callback. unfold join_checked.
    rewrite Hvalid. simpl. by destruct callback.
Qed.

(** How join-room ends: on the read of a property of [null], in a
    refusal, or with the socket in a room. *)
Lemma on_join_room_cases sid now data st :
  (∀ callback, on_join_room sid now data callback st = Throws st []) ∨
  (∃ event_msg ack_msg, ∀ callback,
     on_join_room sid now data callback st
     = join_refused callback st event_msg ack_msg) ∨
  (∃ id hash isProtected, room_id_regex id = true ∧ ∀ callback,
     on_join_room sid now data callback st
     = join_accepted callback
         (state_after_join sid now hash isProtected st id) sid id).
Proof.
  assert (Hinvalid : ∃ event_msg ack_msg, ∀ callback,
    if_callback callback
      (JObj [("success", JBool false); ("error", JStr "Invalid data")])
      st [ToSender "error" [JStr "Invalid join-room data"]] []
    = join_refused callback st event_msg ack_msg).
  { eexists _, _. intros callback. by destruct callback. }
  assert (Hchecked : ∀ roomId hash isProtected,
    (∃ event_msg ack_msg, ∀ callback,
       join_checked sid now callback roomId hash isProtected st
       = join_refused callback st event_msg ack_msg) ∨
    (∃ id hash' isProtected', room_id_regex id = true ∧ ∀ callback,
       join_checked sid now callback roomId hash isProtected st
       = join_accepted callback
           (state_after_join sid now hash' isProtected' st id) sid id)).
  { intros roomId hash isProtected.
    destruct (join_checked_cases sid now roomId hash isProtected st)
      as [? | (id & Hid & H)]; [by left | right; eauto]. }
  unfold on_join_room. cbv zeta.
  destruct (is_type data TString); [right; apply Hchecked |].
  destruct (is_type data TObject); [| right; by left].
  destruct (get_prop data "roomId") as [roomId |]; [| by left].
  destruct (truthy roomId); [| right; by left].
  destruct (get_prop data "passwordHash") as [hash |]; [| by left].
  destruct (get_prop data "isProtected") as [isProtected |]; [| by left].
  right. apply Hchecked.
Qed.

(** The state join-room leaves, whether it returns or throws. *)
Lemma on_join_room_after sid now data callback st :
  state_after (on_join_room sid now data callback st) = st ∨
  ∃ id hash isProtected,
    room_id_regex id = true ∧
    state_after (on_join_room sid now data callback st)
    = state_after_join sid now hash isProtected st id.
Proof.
  destruct (on_join_room_cases sid now data st)
    as [H | [(event_msg & ack_msg & H) | (id & hash & isProtected & Hid & H)]];
    rewrite H.
  - by left.
  - left. apply join_refused_state.
  - right. exists id, hash, isProtected. split; [done |].
    apply join_accepted_state.
Qed.

Lemma on_join_room_state sid now data callback st st' out :
  on_join_room sid now data callback st = Returns st' out →
  st' = st ∨
  ∃ id hash isProtected, st' = state_after_join sid now hash isProtected st id.
Proof.
  intros H. pose proof (on_join_room_after sid now data callback st) as Hafter.
  rewrite H in Hafter. naive_solver.
Qed.

(** Every handler but join-room leaves the state as it is, whether it
    returns or throws. *)
Lemma handle_after sid m st :
  (∀ now data callback, m ≠ JoinRoom now data callback) →
  state_after (handle sid m st) = st.
Proof.
  intros Hm. destruct m; simpl;
    try (exfalso; by eapply Hm);
    unfold_handlers; repeat case_match; done.
Qed.

Lemma handle_state sid m st st' out :
  handle sid m st = Returns st' out →
  (∀ now data callback, m ≠ JoinRoom now data callback) →
  st' = st.
Proof.
  intros H Hm. pose proof (handle_after sid m st Hm) as Hafter.
  by rewrite H in Hafter.
Qed.

Lemma agrees_join sid now hash isProtected st id :
  agrees st →
  agrees (state_after_join sid now hash isProtected st id).
Proof.
  intros Hag r. unfold state_after_join, room_users, socket_join, members at 1.
  simpl.
  destruct (decide (r = id)) as [-> | Hne].
  - rewrite !lookup_insert_eq. simpl. rewrite (Hag id).
    unfold room_after_join, room_users. destruct (rooms st !! id); done.
  - rewrite !lookup_insert_ne by done. apply (Hag r).
Qed.

Lemma agrees_step e st st' out :
  agrees st → step e st = Returns st' out → agrees st'.
Proof.
  intros Hag Hstep. destruct e as [sid m | sid | now]; simpl in Hstep.
  - destruct m;
      try (apply handle_state in Hstep; [by subst | discriminate]).
    simpl in Hstep.
    apply on_join_room_state in Hstep as [-> | (id & hash & flag & ->)];
      [done | by apply agrees_join].
  - injection Hstep as <- _. intros r. simpl.
    rewrite members_leave_all,
      (room_users_disconnect sid (rooms st) (joined st) (roomOrder st)), (Hag r).
    by destruct st.
  - injection Hstep as <- _. intros r.
    rewrite room_users_cleanup. apply (Hag r).
Qed.

Lemma reachable_agrees st : reachable st → agrees st.
Proof.
  induction 1 as [| st e st' out _ IH Hstep].
  - intros r. reflexivity.
  - by eapply agrees_step.
Qed.

(** A handler that throws leaves a state the server also reaches when no
    handler throws: the one it was in, or the one the same join-room leaves
    when it is given the acknowledgement function. *)
Lemma throw_state_reachable e st st' out :
  reachable st → step e st = Throws st' out → reachable st'.
Proof.
  intros Hreach Hstep.
  destruct e as [sid m | sid | now]; simpl in Hstep; [| done | done].
  assert (Hm : (∀ now data callback, m ≠ JoinRoom now data callback) ∨
               ∃ now data callback, m = JoinRoom now data callback).
  { destruct m; eauto; left; discriminate. }
  destruct Hm as [Hm | (now & data & callback & ->)].
  - pose proof (handle_after sid m st Hm) as Hafter.
    rewrite Hstep in Hafter. simpl in Hafter. by subst.
  - simpl in Hstep.
    destruct (on_join_room_cases sid now data st)
      as [H | [(event_msg & ack_msg & H)
              | (id & hash & isProtected & Hid & H)]];
      rewrite H in Hstep.
    + by simplify_eq.
    + destruct callback; simpl in Hstep; by simplify_eq.
    + destruct callback; simpl in Hstep; simplify_eq.
      apply (reachable_step st (Receive sid (JoinRoom now data AckFunction)) _
               (sent_by (join_accepted AckFunction
                           (state_after_join sid now hash isProtected st id)
                           sid id))); [done |].
      simpl. by rewrite H.
Qed.

(** ** The order of the Map *)

Lemma filter_all {A} (P : A → Prop) `{∀ x, Decision (P x)} (l : list A) :
  (∀ x, x ∈ l → P x) → filter P l = l.
Proof.
  induction l as [| x l IH]; intros Hall; [done |].
  rewrite filter_cons_True by (apply Hall; left).
  f_equal. apply IH. intros y Hy. apply Hall. by right.
Qed.

Lemma filter_none {A} (P : A → Prop) `{∀ x, Decision (P x)} (l : list A) :
  (∀ x, x ∈ l → ¬ P x) → filter P l = [].
Proof.
  induction l as [| x l IH]; intros Hall; [done |].
  rewrite filter_cons_False by (apply Hall; left).
  apply IH. intros y Hy. apply Hall. by right.
Qed.

(** Deleting rooms leaves the other keys in their order. *)
Lemma order_after_delete st (rooms1 : gmap string Room) j :
  order_lists_rooms st →
  (∀ r, is_Some (rooms1 !! r) → is_Some (rooms st !! r)) →
  order_lists_rooms
    (mkServer rooms1 j (filter (λ r, is_Some (rooms1 !! r)) (roomOrder st))).
Proof.
  intros [Hnodup Hkeys] Hsub. split; simpl.
  - by apply NoDup_filter.
  - intros r. rewrite list_elem_of_filter, Hkeys. naive_solver.
Qed.

Lemma order_after_join_lists sid now hash isProtected st id :
  order_lists_rooms st →
  order_lists_rooms (state_after_join sid now hash isProtected st id).
Proof.
  intros [Hnodup Hkeys]. unfold state_after_join, order_after_join.
  split; simpl.
  - destruct (rooms st !! id) as [room |] eqn:Hroom; [done |].
    apply NoDup_app. split; [done |]. split; [| apply NoDup_singleton].
    intros r Hr ->%list_elem_of_singleton. apply Hkeys in Hr.
    rewrite Hroom in Hr. by destruct Hr.
  - intros r. destruct (decide (r = id)) as [-> | Hne].
    + rewrite lookup_insert_eq.
      destruct (rooms st !! id) as [room |] eqn:Hroom.
      * rewrite Hkeys, Hroom. naive_solver.
      * rewrite elem_of_app, list_elem_of_singleton. naive_solver.
    + rewrite lookup_insert_ne by done. rewrite <- Hkeys.
      destruct (rooms st !! id); [done |].
      rewrite elem_of_app, list_elem_of_singleton. naive_solver.
Qed.

Lemma disconnect_keeps_keys sid st r :
  is_Some (omap (drop_user sid) (rooms st) !! r) → is_Some (rooms st !! r).
Proof.
  rewrite lookup_omap. destruct (rooms st !! r); [eauto |].
  simpl. by intros [? ?].
Qed.

Lemma order_step e st st' out :
  order_lists_rooms st → step e st = Returns st' out → order_lists_rooms st'.
Proof.
  intros Hord Hstep. destruct e as [sid m | sid | now]; simpl in Hstep.
  - destruct m;
      try (apply handle_state in Hstep; [by subst | discriminate]).
    simpl in Hstep.
    apply on_join_room_state in Hstep as [-> | (id & hash & flag & ->)];
      [done | by apply order_after_join_lists].
  - injection Hstep as <- _. apply order_after_delete; [done |].
    apply disconnect_keeps_keys.
  - injection Hstep as <- _. unfold room_cleanup.
    apply order_after_delete; [done |].
    intros r. rewrite map_lookup_filter.
    destruct (rooms st !! r); [eauto |]. simpl. by intros [? ?].
Qed.

(** In the states the server goes through, the order of the Map lists the
    rooms of the registry, each once. *)
Lemma reachable_order st : reachable st → order_lists_rooms st.
Proof.
  induction 1 as [| st e st' out _ IH Hstep].
  - split; simpl; [apply NoDup_nil_2 |].
    intros r. rewrite lookup_empty, elem_of_nil. split; [done | by intros [? ?]].
  - by eapply order_step.
Qed.

(** ** Disconnect *)

Lemma disconnect_lookup sid st r :
  omap (drop_user sid) (rooms st) !! r
  = match rooms st !! r with
    | None => None
    | Some room =>
      if bool_decide (sid ∈ users room) then
        if bool_decide (users room ∖ {[sid]} = ∅) then None
        else Some (mkRoom (users room ∖ {[sid]}) (passwordHash room)
                          (createdAt room))
      else Some room
    end.
Proof.
  rewrite lookup_omap. destruct (rooms st !! r) as [room |]; [| done].
  simpl. unfold drop_user. case_bool_decide; [| done].
  destruct (size (users room ∖ {[sid]}) =? 0)%nat eqn:Hsize.
  - apply size_zero in Hsize. by rewrite bool_decide_eq_true_2.
  - rewrite bool_decide_eq_false_2; [done |].
    intros Hempty. apply size_zero in Hempty. congruence.
Qed.

Lemma disconnect_notices sid st e :
  order_lists_rooms st →
  e ∈ sent_by (on_disconnect sid st)
  ↔ ∃ r, e = ToRoom r "user-left" [JObj [("userId", JStr sid)]]
         ∧ sid ∈ room_users st r.
Proof.
  intros [_ Hkeys]. simpl. rewrite list_elem_of_fmap. split.
  - intros (r & -> & Hin). exists r. split; [done |].
    by apply list_elem_of_filter in Hin as [Hsid _].
  - intros (r & -> & Hsid). exists r. split; [done |].
    apply list_elem_of_filter. split; [done |]. apply Hkeys.
    unfold room_users in Hsid.
    destruct (rooms st !! r); [eauto | set_solver].
Qed.

Lemma disconnect_notices_once sid st :
  order_lists_rooms st → NoDup (sent_by (on_disconnect sid st)).
Proof.
  intros [Hnodup _]. simpl. apply NoDup_fmap_2.
  - intros r1 r2 Heq. by injection Heq.
  - by apply NoDup_filter.
Qed.

Lemma disconnect_stranger sid st :
  agrees st →
  order_lists_rooms st →
  (∀ r, sid ∉ room_users st r) →
  on_disconnect sid st = Returns st [].
Proof.
  intros Hag [_ Hkeys] Hnot. unfold on_disconnect.
  assert (Hrooms : omap (drop_user sid) (rooms st) = rooms st).
  { apply map_eq. intros r. rewrite disconnect_lookup.
    specialize (Hnot r). unfold room_users in Hnot.
    destruct (rooms st !! r) as [room |]; [| done].
    by rewrite bool_decide_eq_false_2. }
  assert (Hjoined : leave_all sid (joined st) = joined st).
  { apply map_eq. intros r. unfold leave_all. rewrite lookup_fmap.
    specialize (Hnot r). rewrite <- (Hag r) in Hnot. unfold members in Hnot.
    destruct (joined st !! r) as [s |]; [| done].
    simpl in *. f_equal. set_solver. }
  rewrite Hrooms, Hjoined.
  rewrite (filter_all (λ r, is_Some (rooms st !! r))) by (intros r; apply Hkeys).
  rewrite (filter_none (λ r, sid ∈ from_option users ∅ (rooms st !! r)))
    by (intros r _; rewrite <- room_users_lookup; apply Hnot).
  by destruct st.
Qed.

(** C7. When a socket disconnects, in any state the server can be in: the
    members the registry records for each room lose that socket and
    nothing else; a room it was the last member of is deleted, a room it
    shared keeps its hash and creation time, a room it was not in is
    untouched; exactly one [user-left] notice carrying [{userId}] with its
    id is sent for each room it was in, the notices go out in the order of
    the Map (the order in which the rooms were created), and each reaches
    the members that remain; and when it was in no room the state is
    unchanged and nothing is sent. *)
Theorem disconnect_cleanup (sid : string) (st : Server) :
  reachable st →
  ∃ st' out,
    on_disconnect sid st = Returns st' out ∧
    (∀ r, room_users st' r = room_users st r ∖ {[sid]}) ∧
    (∀ r room, rooms st !! r = Some room →
       rooms st' !! r =
         if bool_decide (sid ∈ users room) then
           if bool_decide (users room ∖ {[sid]} = ∅) then None
           else Some (mkRoom (users room ∖ {[sid]}) (passwordHash room)
                             (createdAt room))
         else Some room) ∧
    (∀ r, rooms st !! r = None → rooms st' !! r = None) ∧
    (∀ e, e ∈ out ↔
          ∃ r, e = ToRoom r "user-left" [JObj [("userId", JStr sid)]]
               ∧ sid ∈ room_users st r) ∧
    NoDup out ∧
    (out = (λ r, ToRoom r "user-left" [JObj [("userId", JStr sid)]])
             <$> filter (λ r, sid ∈ room_users st r) (roomOrder st)) ∧
    (∀ r, recipients st' sid (ToRoom r "user-left" [JObj [("userId", JStr sid)]])
          = room_users st r ∖ {[sid]}) ∧
    ((∀ r, sid ∉ room_users st r) → st' = st ∧ out = []).
Proof.
  intros Hreach. pose proof (reachable_agrees st Hreach) as Hag.
  pose proof (reachable_order st Hreach) as Hord.
  eexists _, _. split; [reflexivity |].
  split; [| split; [| split; [| split; [| split; [| split; [| split]]]]]].
  - intros r.
    rewrite (room_users_disconnect sid (rooms st) (joined st) (roomOrder st)).
    by destruct st.
  - intros r room Hroom. simpl. by rewrite disconnect_lookup, Hroom.
  - intros r Hroom. simpl. by rewrite disconnect_lookup, Hroom.
  - intros e. by apply disconnect_notices.
  - by apply disconnect_notices_once.
  - reflexivity.
  - intros r. simpl. rewrite members_leave_all, (Hag r). set_solver.
  - intros Hnot. pose proof (disconnect_stranger sid st Hag Hord Hnot) as Hrun.
    unfold on_disconnect in Hrun. by injection Hrun as -> ->.
Qed.

Lemma run_reachable events st st' :
  reachable st → run events st = Some st' → reachable st'.
Proof.
  revert st. induction events as [| e later IH]; intros st Hreach Hrun.
  - simpl in Hrun. by injection Hrun as <-.
  - simpl in Hrun. destruct (step e st) as [st1 out | st1 out] eqn:Hstep; [| done].
    apply (IH st1); [| done]. by eapply reachable_step.
Qed.

Lemma two_peers_reachable : reachable two_peers.
Proof.
  apply (run_reachable
           [Receive "sock1" (JoinRoom 7 (JStr "ABCDEFGH") AckFunction);
            Receive "sock2" (JoinRoom 9 (JStr "ABCDEFGH") NoCallback)] initial).
  - apply reachable_initial.
  - vm_compute. reflexivity.
Qed.

Lemma disconnect_cleanup_witness :
  reachable two_peers ∧
  ∃ st' out,
    on_disconnect "sock1" two_peers = Returns st' out ∧
    (∀ r, room_users st' r = room_users two_peers r ∖ {[ "sock1" ]}) ∧
    (∀ r room, rooms two_peers !! r = Some room →
       rooms st' !! r =
         if bool_decide ("sock1" ∈ users room) then
           if bool_decide (users room ∖ {[ "sock1" ]} = ∅) then None
           else Some (mkRoom (users room ∖ {[ "sock1" ]}) (passwordHash room)
                             (createdAt room))
         else Some room) ∧
    (∀ r, rooms two_peers !! r = None → rooms st' !! r = None) ∧
    (∀ e, e ∈ out ↔
          ∃ r, e = ToRoom r "user-left" [JObj [("userId", JStr "sock1")]]
               ∧ "sock1" ∈ room_users two_peers r) ∧
    NoDup out ∧
    (out = (λ r, ToRoom r "user-left" [JObj [("userId", JStr "sock1")]])
             <$> filter (λ r, "sock1" ∈ room_users two_peers r)
                   (roomOrder two_peers)) ∧
    (∀ r, recipients st' "sock1"
            (ToRoom r "user-left" [JObj [("userId", JStr "sock1")]])
          = room_users two_peers r ∖ {[ "sock1" ]}) ∧
    ((∀ r, "sock1" ∉ room_users two_peers r) → st' = two_peers ∧ out = []).
Proof.
  split; [exact two_peers_reachable |].
  exact (disconnect_cleanup "sock1" two_peers two_peers_reachable).
Defined.

(** ** The room sweep *)

Lemma swept_spec now room :
  swept now room = true ↔ users room = ∅ ∧ ROOM_TIMEOUT < now - createdAt room.
Proof.
  unfold swept. rewrite andb_true_iff, Z.ltb_lt, size_zero. tauto.
Qed.

(** C8. For a room of the registry, the sweep run at time [now] deletes it
    exactly when it has no member and its age [now - createdAt] exceeds
    the ten minutes of [ROOM_TIMEOUT]; a room it does not delete is left
    as it was. So a room with a member stays whatever its age, and a room
    of age at most [ROOM_TIMEOUT] stays also when it is empty. *)
Theorem sweep_removes_expired_empty (now : Z) (st : Server) (r : string)
    (room : Room) :
  rooms st !! r = Some room →
  let after := rooms (room_cleanup now st) !! r in
  (after = None ↔ users room = ∅ ∧ ROOM_TIMEOUT < now - createdAt room) ∧
  (after = None ∨ after = Some room) ∧
  (users room ≠ ∅ → after = Some room) ∧
  (now - createdAt room ≤ ROOM_TIMEOUT → after = Some room).
Proof.
  intros Hroom after. subst after. rewrite cleanup_lookup, Hroom.
  pose proof (swept_spec now room) as Hspec.
  destruct (swept now room).
  - destruct Hspec as [Hspec _]. destruct (Hspec eq_refl) as [Hempty Hage].
    split; [tauto |]. split; [by left |]. split; [done | lia].
  - split; [| by auto].
    split; [done |]. intros H. by apply Hspec in H.
Qed.

Lemma sweep_removes_expired_empty_witness :
  rooms one_stale !! "ABCDEFGH" = Some (mkRoom ∅ JNull 7) ∧
  (rooms (room_cleanup 600008 one_stale) !! "ABCDEFGH" = None
   ↔ users (mkRoom ∅ JNull 7) = ∅ ∧ ROOM_TIMEOUT < 600008 - 7) ∧
  (rooms (room_cleanup 600007 one_stale) !! "ABCDEFGH" = None
   ↔ users (mkRoom ∅ JNull 7) = ∅ ∧ ROOM_TIMEOUT < 600007 - 7).
Proof.
  split; [reflexivity |]. split.
  - apply (sweep_removes_expired_empty 600008 one_stale "ABCDEFGH"
             (mkRoom ∅ JNull 7)). reflexivity.
  - apply (sweep_removes_expired_empty 600007 one_stale "ABCDEFGH"
             (mkRoom ∅ JNull 7)). reflexivity.
Defined.

(** The sweep creates no room and leaves socket.io's rooms alone. *)
Lemma sweep_only_deletes now st r :
  (rooms st !! r = None → rooms (room_cleanup now st) !! r = None) ∧
  joined (room_cleanup now st) = joined st.
Proof.
  split; [| done]. intros Hnone. by rewrite cleanup_lookup, Hnone.
Qed.

(** ** What lasts from step to step *)

(** The room entries a step can leave under [r]: the one that was there
    with other members, or a new one. *)
Lemma step_lookup e st st' out r room room' :
  step e st = Returns st' out →
  rooms st !! r = Some room →
  rooms st' !! r = Some room' →
  passwordHash room' = passwordHash room ∧ createdAt room' = createdAt room.
Proof.
  intros Hstep Hroom Hroom'. destruct e as [sid m | sid | now]; simpl in Hstep.
  - destruct m;
      try (apply handle_state in Hstep; [subst; naive_solver | discriminate]).
    simpl in Hstep.
    apply on_join_room_state in Hstep as [-> | (id & hash & flag & ->)];
      [naive_solver |].
    simpl in Hroom'. destruct (decide (id = r)) as [-> | Hne].
    + rewrite lookup_insert_eq in Hroom'. injection Hroom' as <-.
      unfold room_after_join. by rewrite Hroom.
    + rewrite lookup_insert_ne in Hroom' by done. naive_solver.
  - injection Hstep as <- _. simpl in Hroom'.
    rewrite disconnect_lookup, Hroom in Hroom'.
    repeat case_bool_decide; naive_solver.
  - injection Hstep as <- _. rewrite cleanup_lookup, Hroom in Hroom'.
    destruct (swept now room); naive_solver.
Qed.

(** The hash and the creation time of a room are set once: no step
    changes them while the room is in the registry. *)
Lemma hash_set_once e st st' out r room room' :
  step e st = Returns st' out →
  rooms st !! r = Some room →
  rooms st' !! r = Some room' →
  passwordHash room' = passwordHash room.
Proof. intros Hstep Hroom Hroom'. by eapply step_lookup. Qed.

(** A room of the registry has a member: a join adds one, and a
    disconnect deletes the rooms it empties. *)
Lemma reachable_rooms_inhabited st r room :
  reachable st → rooms st !! r = Some room → users room ≠ ∅.
Proof.
  intros Hreach. revert r room.
  induction Hreach as [| st e st' out _ IH Hstep]; intros r room Hroom.
  - simpl in Hroom. by rewrite lookup_empty in Hroom.
  - destruct e as [sid m | sid | now]; simpl in Hstep.
    + destruct m;
        try (apply handle_state in Hstep; [subst; by eapply IH | discriminate]).
      simpl in Hstep.
      apply on_join_room_state in Hstep as [-> | (id & hash & flag & ->)];
        [by eapply IH |].
      simpl in Hroom. destruct (decide (id = r)) as [-> | Hne].
      * rewrite lookup_insert_eq in Hroom. injection Hroom as <-.
        unfold room_after_join. destruct (rooms st !! r); simpl; set_solver.
      * rewrite lookup_insert_ne in Hroom by done. by eapply IH.
    + injection Hstep as <- _. simpl in Hroom.
      rewrite disconnect_lookup in Hroom.
      destruct (rooms st !! r) as [room0 |] eqn:Hroom0; [| done].
      repeat case_bool_decide; simplify_eq; [done |]. by eapply IH.
    + injection Hstep as <- _. rewrite cleanup_lookup in Hroom.
      destruct (rooms st !! r) as [room0 |] eqn:Hroom0; [| done].
      destruct (swept now room0); simplify_eq. by eapply IH.
Qed.

(** So in the states the server goes through, the sweep finds nothing to
    delete. *)
Lemma reachable_sweep_idle now st :
  reachable st → room_cleanup now st = st.
Proof.
  intros Hreach. destruct (reachable_order st Hreach) as [_ Hkeys].
  unfold room_cleanup.
  assert (Hrooms : filter (λ kv : string * Room, swept now kv.2 = false)
                     (rooms st) = rooms st).
  { apply map_filter_id. intros r room Hroom. simpl.
    pose proof (reachable_rooms_inhabited _ r room Hreach Hroom) as Hne.
    unfold swept. apply andb_false_iff. right.
    destruct (size (users room) =? 0)%nat eqn:Hsize; [| done].
    by apply size_zero in Hsize. }
  rewrite Hrooms.
  rewrite (filter_all (λ r, is_Some (rooms st !! r))) by (intros r; apply Hkeys).
  by destruct st.
Qed.

(** ** File metadata *)

Lemma bad_size_range n : bad_size (JNum n) = false ↔ size_in_range n.
Proof.
  destruct n as [| | | q]; simpl; try done.
  rewrite orb_false_iff, !negb_false_iff, !Qle_bool_iff. tauto.
Qed.

Lemma valid_socket_data_inv data :
  isValidSocketData data = true →
  ∃ id, names_room data id ∧ room_id_regex id = true.
Proof.
  unfold isValidSocketData, names_room. intros H.
  destruct data as [| | b | n | s | items | fields]; simpl in H;
    rewrite ?andb_false_r in H; try discriminate.
  simpl. destruct (assoc "roomId" fields) as [| | | | id | |]; try discriminate.
  eauto.
Qed.

Lemma relayable_valid data :
  relayable_file_meta data → isValidSocketData data = true.
Proof.
  intros (id & _ & _ & _ & Hname & Hid & _).
  by rewrite (valid_socket_data _ _ Hname).
Qed.

(** The handler either relays, on a payload of the relayable kind, or
    drops, on any other payload; it never throws. *)
Lemma file_meta_cases sid data st :
  (∃ id metadata,
     names_room data id ∧ get_prop data "metadata" = Some metadata ∧
     relayable_file_meta data ∧
     on_file_meta sid data st = Returns st [ToRoom id "file-meta" [metadata]])
  ∨ (¬ relayable_file_meta data ∧ on_file_meta sid data st = Returns st []).
Proof.
  unfold on_file_meta.
  destruct (isValidSocketData data) eqn:Hvalid; simpl.
  2:{ right. split; [| done]. intros H. apply relayable_valid in H. congruence. }
  destruct (valid_socket_data_inv _ Hvalid) as (id & Hname & Hid).
  destruct (names_room_obj _ _ Hname) as (fields & -> & Hs). simpl. rewrite Hs.
  assert (Hdrop : ∀ P : Prop,
    (∀ name n, get_prop (assoc "metadata" fields) "name" = Some (JStr name) →
               get_prop (assoc "metadata" fields) "size" = Some (JNum n) →
               size_in_range n → False) →
    P ∨ ¬ relayable_file_meta (JObj fields) ∧ Returns st [] = Returns st []).
  { intros P Hno. right. split; [| done].
    intros (id' & md & name & n & _ & _ & [= <-] & Hn & Hsz & Hrange). eauto. }
  destruct (assoc "metadata" fields) as [| | b | n | s | items | mf] eqn:Hmd;
    simpl; rewrite ?orb_true_r;
    try (apply Hdrop; intros name n'; simpl; congruence).
  simpl in Hdrop.
  destruct (assoc "name" mf) as [| | b | n | name | items | nf] eqn:Hn; simpl;
    try (apply Hdrop; intros name' n'; congruence).
  destruct (assoc "size" mf) as [| | b | n | s | items | sf] eqn:Hsz;
    try (apply Hdrop; intros name' n'; congruence).
  destruct (bad_size (JNum n)) eqn:Hbad.
  - apply Hdrop. intros name' n' _ [= <-] Hrange.
    apply bad_size_range in Hrange. congruence.
  - left. exists id, (JObj mf). split; [done |]. split; [done |].
    split; [| done]. apply bad_size_range in Hbad.
    exists id, (JObj mf), name, n. simpl. by rewrite Hmd, Hn, Hsz.
Qed.

(** C5, as the code has it. A file-meta is relayed, its metadata
    unchanged, exactly when its payload is an object with a well-formed
    room id and a metadata object whose [name] is a string, the empty
    string included, and whose [size] is a number neither below 0 nor
    above 10 GiB; any other payload is dropped: nothing is sent and the
    state stays as it is. *)
Theorem file_meta_relayed_iff (sid : string) (data : JsVal) (st : Server) :
  (file_meta_relayed sid data st ↔ relayable_file_meta data) ∧
  (¬ relayable_file_meta data → file_meta_dropped sid data st).
Proof.
  unfold file_meta_relayed, file_meta_dropped.
  destruct (file_meta_cases sid data st)
    as [(id & md & Hname & Hmd & Hok & Hrun) | [Hno Hrun]].
  - split; [| done]. split; [done |]. intros _. eauto.
  - split; [| done]. split; [| done].
    intros (id & md & _ & _ & Hrun'). congruence.
Qed.

(** C5, as the specification has it, fails: a file-meta whose [name] is the
    empty string is relayed. *)
Lemma file_meta_empty_name_relayed :
  on_file_meta "sock1" sample_empty_name two_peers
  = Returns two_peers
      [ToRoom "ABCDEFGH" "file-meta"
         [JObj [("name", JStr ""); ("size", JNum (JFin 0))]]] ∧
  file_meta_relayed "sock1" sample_empty_name two_peers ∧
  ¬ specified_file_meta sample_empty_name.
Proof.
  split; [reflexivity |]. split.
  - by exists "ABCDEFGH", (JObj [("name", JStr ""); ("size", JNum (JFin 0))]).
  - intros (id & md & name & q & _ & _ & [= <-] & [= <-] & Hne & _). done.
Qed.

Lemma file_meta_relayed_iff_witness :
  file_meta_relayed "sock1" sample_file_meta two_peers.
Proof.
  apply (proj1 (file_meta_relayed_iff "sock1" sample_file_meta two_peers)).
  exists "ABCDEFGH", (JObj [("name", JStr "a.bin"); ("size", JNum (JFin 5))]),
    "a.bin", (JFin 5).
  repeat split; discriminate.
Defined.

(** ** Relay *)

Lemma relay_returns sid m st R event :
  relay_event m = Some event →
  names_room (payload_of m) R →
  room_id_regex R = true →
  well_formed_relay m →
  ∃ args, handle sid m st = Returns st [ToRoom R event args] ∧
          relay_carries sid m args.
Proof.
  intros Hev Hname HR Hwf.
  pose proof (valid_socket_data _ _ Hname) as Hvalid. rewrite HR in Hvalid.
  pose proof Hname as Hrid. unfold names_room in Hrid.
  destruct m; simpl in *; try discriminate; injection Hev as <-.
  - destruct Hwf as (sdp & Hsdp & Htrue).
    unfold on_offer, relay_sdp. rewrite Hvalid, Hsdp, Hrid, Htrue. simpl. eauto.
  - destruct Hwf as (sdp & Hsdp & Htrue).
    unfold on_answer, relay_sdp. rewrite Hvalid, Hsdp, Hrid, Htrue. simpl. eauto.
  - destruct Hwf as (c & Hc & Htrue).
    unfold on_ice_candidate. rewrite Hvalid, Hc, Hrid, Htrue. simpl. eauto.
  - destruct (file_meta_cases sid data st)
      as [(id & md & Hname' & Hmd & _ & Hrun) | [Hno _]]; [| contradiction].
    unfold names_room in Hname'. rewrite Hrid in Hname'.
    injection Hname' as <-. eauto.
  - unfold on_transfer_done, relay_status. rewrite Hvalid, Hrid. simpl. eauto.
  - unfold on_transfer_confirmed, relay_status. rewrite Hvalid, Hrid. simpl. eauto.
Qed.

(** C9. In any state the server can be in, a well-formed offer, answer,
    ice-candidate, file-meta, transfer-done or transfer-confirmed that
    socket [sid] sends for room [R] is passed on as one event to room [R]
    and changes nothing; the sockets it reaches are the members the
    registry records for [R] other than [sid], so every other member gets
    it and [sid] does not; and what an offer, an answer or an ice-candidate
    carries is the [sdp] or [candidate] of the payload with [from] set to
    [sid]. *)
Theorem relay_fan_out (sid : string) (m : Message) (st : Server)
    (R event : string) :
  reachable st →
  relay_event m = Some event →
  names_room (payload_of m) R →
  room_id_regex R = true →
  well_formed_relay m →
  ∃ args,
    handle sid m st = Returns st [ToRoom R event args] ∧
    (recipients st sid (ToRoom R event args) = room_users st R ∖ {[sid]}) ∧
    (∀ x, x ∈ room_users st R → x ≠ sid →
          x ∈ recipients st sid (ToRoom R event args)) ∧
    (sid ∉ recipients st sid (ToRoom R event args)) ∧
    relay_carries sid m args.
Proof.
  intros Hreach Hev Hname HR Hwf.
  destruct (relay_returns sid m st R event Hev Hname HR Hwf)
    as (args & Hrun & Hargs).
  exists args. simpl. rewrite (reachable_agrees st Hreach R).
  split; [done |]. split; [done |]. split; [| split; [| done]]; set_solver.
Qed.

Lemma relay_fan_out_witness :
  reachable two_peers ∧
  relay_event sample_offer = Some "offer" ∧
  names_room (payload_of sample_offer) "ABCDEFGH" ∧
  room_id_regex "ABCDEFGH" = true ∧
  well_formed_relay sample_offer ∧
  ∃ args,
    handle "sock2" sample_offer two_peers
    = Returns two_peers [ToRoom "ABCDEFGH" "offer" args] ∧
    (recipients two_peers "sock2" (ToRoom "ABCDEFGH" "offer" args)
     = room_users two_peers "ABCDEFGH" ∖ {[ "sock2" ]}) ∧
    (∀ x, x ∈ room_users two_peers "ABCDEFGH" → x ≠ "sock2" →
          x ∈ recipients two_peers "sock2" (ToRoom "ABCDEFGH" "offer" args)) ∧
    ("sock2" ∉ recipients two_peers "sock2" (ToRoom "ABCDEFGH" "offer" args)) ∧
    relay_carries "sock2" sample_offer args.
Proof.
  assert (Hwf : well_formed_relay sample_offer) by (by exists (JStr "v=0")).
  split; [exact two_peers_reachable |]. split; [reflexivity |].
  split; [reflexivity |]. split; [reflexivity |]. split; [exact Hwf |].
  apply (relay_fan_out "sock2" sample_offer two_peers "ABCDEFGH" "offer");
    [exact two_peers_reachable | reflexivity | reflexivity | reflexivity
    | exact Hwf].
Defined.

(** ** Rate limiting *)

Section RateLimit.

Variable clientIP : string.

Implicit Types (cc : gmap string IpData) (now first c : Z).

(** Inside the window and below the limit a connection is let in and
    counted. *)
Lemma rate_limit_counts now cc c first :
  cc !! clientIP = Some (mkIpData c first) →
  now - first ≤ RATE_LIMIT_WINDOW →
  c < MAX_CONNECTIONS_PER_IP →
  rate_limit clientIP now cc
  = (Next, <[clientIP := mkIpData (c + 1) first]> cc).
Proof.
  intros Hcc Hwin Hc. unfold rate_limit. rewrite Hcc. simpl.
  rewrite (proj2 (Z.leb_le _ _) Hwin).
  by rewrite (proj2 (Z.leb_gt _ _) Hc).
Qed.

(** Inside the window and at the limit it is refused, and nothing is
    written. *)
Lemma rate_limit_rejects now cc c first :
  cc !! clientIP = Some (mkIpData c first) →
  now - first ≤ RATE_LIMIT_WINDOW →
  MAX_CONNECTIONS_PER_IP ≤ c →
  rate_limit clientIP now cc = (NextError "Rate limit exceeded", cc).
Proof.
  intros Hcc Hwin Hc. unfold rate_limit. rewrite Hcc. simpl.
  rewrite (proj2 (Z.leb_le _ _) Hwin).
  by rewrite (proj2 (Z.leb_le _ _) Hc).
Qed.

Lemma rate_limit_restarts now cc ipData :
  cc !! clientIP = Some ipData →
  RATE_LIMIT_WINDOW < now - firstConnection ipData →
  rate_limit clientIP now cc = (Next, <[clientIP := mkIpData 1 now]> cc).
Proof.
  intros Hcc Hwin. unfold rate_limit. rewrite Hcc.
  by rewrite (proj2 (Z.leb_gt _ _) Hwin).
Qed.

(** A connection from another address leaves the state of this one
    alone. *)
Lemma rate_limit_other other now cc :
  other ≠ clientIP → (rate_limit other now cc).2 !! clientIP = cc !! clientIP.
Proof.
  intros Hne. unfold rate_limit.
  repeat case_match; simpl; by rewrite ?lookup_insert_ne.
Qed.

(** The one-minute sweep keeps the state of an address whose window has
    not run out, and removes the state of one whose window has. *)
Lemma rate_cleanup_lookup now cc ipData :
  cc !! clientIP = Some ipData →
  rate_cleanup now cc !! clientIP
  = if bool_decide (now - firstConnection ipData ≤ RATE_LIMIT_WINDOW)
    then Some ipData else None.
Proof.
  intros Hcc. unfold rate_cleanup. rewrite map_lookup_filter, Hcc. simpl.
  case_bool_decide; case_guard; (done || lia).
Qed.

(** While the window lasts, whatever else happens, the connections of the
    address are let in until the count is 10 and refused from then on. *)
Lemma verdicts_in_window events : ∀ cc c first,
  cc !! clientIP = Some (mkIpData c first) →
  0 ≤ c ≤ MAX_CONNECTIONS_PER_IP →
  Forall (λ e, event_time e - first ≤ RATE_LIMIT_WINDOW) events →
  ∃ log cc',
    verdicts clientIP events cc = (log, cc') ∧
    (∀ k a, log !! k = Some a → a = expected (Z.to_nat c + k)) ∧
    cc' !! clientIP
    = Some (mkIpData (Z.min MAX_CONNECTIONS_PER_IP (c + Z.of_nat (length log)))
                     first).
Proof.
  unfold MAX_CONNECTIONS_PER_IP.
  induction events as [| e later IH]; intros cc c first Hcc Hc Hwin.
  - exists [], cc. simpl. split; [done |]. split; [done |].
    rewrite Hcc. do 2 f_equal. lia.
  - apply Forall_cons in Hwin as [Hnow Hlater].
    destruct e as [ip now | now]; simpl in Hnow; simpl.
    + destruct (decide (ip = clientIP)) as [-> | Hne].
      * rewrite bool_decide_eq_true_2 by done.
        destruct (decide (c < 10)) as [Hlt | Hge].
        -- rewrite (rate_limit_counts now cc c first) by done.
           destruct (IH (<[clientIP := mkIpData (c + 1) first]> cc) (c + 1) first)
             as (log & cc' & -> & Hlog & Hcc');
             [apply lookup_insert_eq | lia | done |].
           exists (Next :: log), cc'. split; [done |]. split.
           ++ intros [| k] a Ha; simpl in Ha.
              ** injection Ha as <-. unfold expected.
                 rewrite (proj2 (Nat.ltb_lt _ _)); [done | lia].
              ** rewrite (Hlog k a Ha). f_equal. lia.
           ++ rewrite Hcc'. simpl length. do 2 f_equal. lia.
        -- rewrite (rate_limit_rejects now cc c first) by (done || unfold MAX_CONNECTIONS_PER_IP; lia).
           destruct (IH cc c first) as (log & cc' & -> & Hlog & Hcc');
             [done | lia | done |].
           exists (NextError "Rate limit exceeded" :: log), cc'.
           split; [done |]. split.
           ++ intros [| k] a Ha; simpl in Ha.
              ** injection Ha as <-. unfold expected.
                 rewrite (proj2 (Nat.ltb_ge _ _)); [done | lia].
              ** rewrite (Hlog k a Ha). unfold expected.
                 rewrite !(proj2 (Nat.ltb_ge _ _)); [done | lia | lia].
           ++ rewrite Hcc'. simpl length. do 2 f_equal. lia.
      * rewrite bool_decide_eq_false_2 by done.
        pose proof (rate_limit_other ip now cc Hne) as Hother.
        destruct (rate_limit ip now cc) as [a cc1]. simpl in Hother.
        destruct (IH cc1 c first) as (log & cc' & -> & Hlog & Hcc');
          [by rewrite Hother | done | done |].
        eauto.
    + destruct (IH (rate_cleanup now cc) c first)
        as (log & cc' & -> & Hlog & Hcc'); [| done | done | eauto].
      rewrite (rate_cleanup_lookup now cc _ Hcc). simpl.
      by rewrite bool_decide_eq_true_2.
Qed.

(** C6. An address with no rate state connects at time [first]; then come
    any events, none later than 60 seconds after [first]: further
    connections of the address, connections of others, turns of the
    sweep. The connections of the address come out in order as ten
    admissions (the one at [first] and the next nine) and the rate-limit
    error for the eleventh and every later one, and the state of the
    address keeps [first] as the start of its window. And in any state, a
    connection more than 60 seconds after the start of the window of its
    address is admitted and sets the state of the address to [count = 1]
    with the window starting at that connection. *)
Theorem rate_limit_window (first : Z) (events : list RateEvent)
    (cc : gmap string IpData) :
  cc !! clientIP = None →
  Forall (λ e, event_time e - first ≤ RATE_LIMIT_WINDOW) events →
  (∃ log cc',
     verdicts clientIP (Connect clientIP first :: events) cc = (log, cc') ∧
     (∀ k a, log !! k = Some a → a = expected k) ∧
     cc' !! clientIP
     = Some (mkIpData (Z.min MAX_CONNECTIONS_PER_IP (Z.of_nat (length log)))
                      first)) ∧
  (∀ cc2 ipData now,
     cc2 !! clientIP = Some ipData →
     RATE_LIMIT_WINDOW < now - firstConnection ipData →
     rate_limit clientIP now cc2 = (Next, <[clientIP := mkIpData 1 now]> cc2)).
Proof.
  intros Hnone Hwin.
  split; [| intros cc2 ipData now; apply rate_limit_restarts].
  simpl. rewrite bool_decide_eq_true_2 by done.
  unfold rate_limit at 1. rewrite Hnone.
  destruct (verdicts_in_window events (<[clientIP := mkIpData 1 first]> cc) 1 first)
    as (log & cc' & -> & Hlog & Hcc');
    [apply lookup_insert_eq | unfold MAX_CONNECTIONS_PER_IP; lia | done |].
  exists (Next :: log), cc'. split; [done |]. split.
  - intros [| k] a Ha; simpl in Ha.
    + by injection Ha as <-.
    + by rewrite (Hlog k a Ha).
  - rewrite Hcc'. simpl length. do 2 f_equal. lia.
Qed.

End RateLimit.

Lemma sample_burst_in_window :
  Forall (λ e, event_time e - 1000 ≤ RATE_LIMIT_WINDOW) sample_burst.
Proof.
  unfold sample_burst, RATE_LIMIT_WINDOW.
  repeat (constructor; [simpl; lia |]). constructor.
Qed.

Lemma rate_limit_window_witness :
  (∅ : gmap string IpData) !! "10.0.0.1" = None ∧
  Forall (λ e, event_time e - 1000 ≤ RATE_LIMIT_WINDOW) sample_burst ∧
  ∃ log cc',
    verdicts "10.0.0.1" (Connect "10.0.0.1" 1000 :: sample_burst) ∅ = (log, cc') ∧
    (∀ k a, log !! k = Some a → a = expected k) ∧
    cc' !! "10.0.0.1"
    = Some (mkIpData (Z.min MAX_CONNECTIONS_PER_IP (Z.of_nat (length log))) 1000).
Proof.
  split; [reflexivity |]. split; [exact sample_burst_in_window |].
  apply (rate_limit_window "10.0.0.1" 1000 sample_burst ∅);
    [reflexivity | exact sample_burst_in_window].
Defined.

(** The sample run: eleven connections of one address within the minute,
    with another address and the sweep in between. *)
Example sample_burst_verdicts :
  (verdicts "10.0.0.1" (Connect "10.0.0.1" 1000 :: sample_burst) ∅).1
  = (replicate 10 Next ++ [NextError "Rate limit exceeded"])%list.
Proof. vm_compute. reflexivity. Qed.

(** After the minute the address is let in again, with a new window. *)
Example sample_burst_restart :
  let cc := (verdicts "10.0.0.1" (Connect "10.0.0.1" 1000 :: sample_burst) ∅).2 in
  cc !! "10.0.0.1" = Some (mkIpData 10 1000) ∧
  (rate_limit "10.0.0.1" 61000 cc).1 = NextError "Rate limit exceeded" ∧
  (rate_limit "10.0.0.1" 61001 cc).1 = Next ∧
  (rate_limit "10.0.0.1" 61001 cc).2 !! "10.0.0.1" = Some (mkIpData 1 61001).
Proof. vm_compute. repeat split. Qed.

(** ** The room id pattern and a session, run *)

Example room_id_shapes :
  room_id_regex "ABCDEFGH" = true ∧ room_id_regex "abc123XYZ789qrs" = true ∧
  room_id_regex "ABCDEFG" = false ∧ room_id_regex "abc123XYZ789qrst" = false ∧
  room_id_regex "ABCD EFGH" = false ∧ room_id_regex "ABCDEFGH-" = false ∧
  room_id_regex "" = false.
Proof. repeat split. Qed.

(** With a boolean flag and a string hash, both truthy means: the flag is
    [true] and the hash is not the empty string. *)
Lemma protect_typed (b : bool) (h : string) :
  truthy (JBool b) && truthy (JStr h) = true ↔ b = true ∧ h ≠ "".
Proof.
  simpl. rewrite andb_true_iff, negb_true_iff.
  destruct (String.eqb_spec h ""); naive_solver.
Qed.

Example session_first_join :
  on_join_room "sock1" 7 (JStr "ABCDEFGH") AckFunction initial
  = Returns one_peer
      [Ack (JObj [("success", JBool true); ("roomId", JStr "ABCDEFGH")]);
       ToRoom "ABCDEFGH" "user-joined" [JStr "sock1"]] ∧
  recipients one_peer "sock1" (ToRoom "ABCDEFGH" "user-joined" [JStr "sock1"]) = ∅.
Proof. split; vm_compute; reflexivity. Qed.

Example session_second_join :
  on_join_room "sock2" 9 (JStr "ABCDEFGH") AckFunction one_peer
  = Returns two_peers
      [Ack (JObj [("success", JBool true); ("roomId", JStr "ABCDEFGH")]);
       ToRoom "ABCDEFGH" "user-joined" [JStr "sock2"]] ∧
  recipients two_peers "sock2" (ToRoom "ABCDEFGH" "user-joined" [JStr "sock2"])
  = {[ "sock1" ]}.
Proof. split; vm_compute; reflexivity. Qed.

Example session_offer :
  handle "sock2" sample_offer two_peers
  = Returns two_peers
      [ToRoom "ABCDEFGH" "offer"
         [JObj [("sdp", JStr "v=0"); ("from", JStr "sock2")]]] ∧
  recipients two_peers "sock2" (ToRoom "ABCDEFGH" "offer" []) = {[ "sock1" ]}.
Proof. split; vm_compute; reflexivity. Qed.

Example session_first_leaves :
  on_disconnect "sock1" two_peers
  = Returns peer_left
      [ToRoom "ABCDEFGH" "user-left" [JObj [("userId", JStr "sock1")]]] ∧
  recipients peer_left "sock1"
    (ToRoom "ABCDEFGH" "user-left" [JObj [("userId", JStr "sock1")]])
  = {[ "sock2" ]}.
Proof. split; vm_compute; reflexivity. Qed.

Example session_last_leaves :
  on_disconnect "sock2" peer_left
  = Returns (mkServer ∅ {[ "ABCDEFGH" := ∅ ]} [])
      [ToRoom "ABCDEFGH" "user-left" [JObj [("userId", JStr "sock2")]]] ∧
  room_users (mkServer ∅ {[ "ABCDEFGH" := ∅ ]} []) "ABCDEFGH" = ∅.
Proof. split; vm_compute; reflexivity. Qed.

(** The notices of a disconnect go out in the order in which the rooms
    were created, not in the order of their ids. *)
Example session_leaves_in_map_order :
  ∃ st,
    run [Receive "sock1" (JoinRoom 7 (JStr "ZZZZZZZZ") NoCallback);
         Receive "sock1" (JoinRoom 8 (JStr "AAAAAAAA") NoCallback);
         Receive "sock2" (JoinRoom 9 (JStr "AAAAAAAA") NoCallback)] initial
    = Some st ∧
    roomOrder st = ["ZZZZZZZZ"; "AAAAAAAA"] ∧
    on_disconnect "sock1" st
    = Returns
        (mkServer {[ "AAAAAAAA" := mkRoom {[ "sock2" ]} JNull 8 ]}
                  {[ "ZZZZZZZZ" := ∅; "AAAAAAAA" := {[ "sock2" ]} ]}
                  ["AAAAAAAA"])
        [ToRoom "ZZZZZZZZ" "user-left" [JObj [("userId", JStr "sock1")]];
         ToRoom "AAAAAAAA" "user-left" [JObj [("userId", JStr "sock1")]]].
Proof. eexists. repeat split; vm_compute; reflexivity. Qed.

(** What throws: a join-room or a check-room whose payload is [null],
    before anything is done. *)
Example null_payload_throws :
  on_join_room "sock1" 7 JNull AckFunction initial = Throws initial [] ∧
  on_check_room JNull initial = Throws initial [] ∧
  on_offer "sock1" JNull initial = Returns initial [].
Proof. repeat split. Qed.

(** And a join-room whose second argument is truthy and not a function:
    once the socket is in the room, or once the [error] event is sent. *)
Example not_callable_throws :
  on_join_room "sock1" 7 (JStr "ABCDEFGH") NotCallable initial
  = Throws one_peer [] ∧
  on_join_room "sock1" 7 (JStr "short") NotCallable initial
  = Throws initial [ToSender "error" [JStr "Invalid room ID format"]] ∧
  on_join_room "sock1" 7 (JNum (JFin 1)) NotCallable initial
  = Throws initial [ToSender "error" [JStr "Invalid join-room data"]].
Proof. repeat split; vm_compute; reflexivity. Qed.

(** * The server, beyond single calls *)

(** ** Invariants of the registry *)

Lemma one_protected_reachable : reachable one_protected.
Proof.
  apply (run_reachable
           [Receive "sock1" (JoinRoom 7 sample_protected_join AckFunction)]
           initial).
  - apply reachable_initial.
  - vm_compute. reflexivity.
Qed.

(** X1. The rooms Map and socket.io list the same sockets under every room id,
    in every state the server goes through. *)
Theorem registry_matches_socket_rooms (st : Server) (r : string) :
  reachable st → members (joined st) r = room_users st r.
Proof. intros Hreach. apply (reachable_agrees st Hreach). Qed.

Lemma registry_matches_socket_rooms_witness :
  reachable two_peers ∧
  members (joined two_peers) "ABCDEFGH" = room_users two_peers "ABCDEFGH".
Proof.
  split; [exact two_peers_reachable |].
  apply (registry_matches_socket_rooms two_peers "ABCDEFGH").
  exact two_peers_reachable.
Defined.

Lemma on_join_room_state_valid sid now data callback st st' out :
  on_join_room sid now data callback st = Returns st' out →
  st' = st ∨
  ∃ id hash isProtected,
    room_id_regex id = true ∧
    st' = state_after_join sid now hash isProtected st id.
Proof.
  intros H. pose proof (on_join_room_after sid now data callback st) as Hafter.
  by rewrite H in Hafter.
Qed.

Section RoomInvariant.

(** A property of the entries of the registry holds in every state the
    server goes through when a join gives it to the entry it writes and a
    departure keeps it on the entry it shrinks. *)
Variable P : string → Room → Prop.

Hypothesis P_join : ∀ sid now hash isProtected st id,
  room_id_regex id = true →
  (∀ room, rooms st !! id = Some room → P id room) →
  P id (room_after_join sid now hash isProtected st id).

Hypothesis P_leave : ∀ sid r room,
  P r room →
  users room ∖ {[sid]} ≠ ∅ →
  P r (mkRoom (users room ∖ {[sid]}) (passwordHash room) (createdAt room)).

Lemma reachable_rooms_all st r room :
  reachable st → rooms st !! r = Some room → P r room.
Proof.
  intros Hreach. revert r room.
  induction Hreach as [| st e st' out _ IH Hstep]; intros r room Hroom.
  - simpl in Hroom. by rewrite lookup_empty in Hroom.
  - destruct e as [sid m | sid | now]; simpl in Hstep.
    + destruct m;
        try (apply handle_state in Hstep; [subst; by eapply IH | discriminate]).
      simpl in Hstep.
      apply on_join_room_state_valid in Hstep
        as [-> | (id & hash & flag & Hid & ->)]; [by eapply IH |].
      simpl in Hroom. destruct (decide (id = r)) as [-> | Hne].
      * rewrite lookup_insert_eq in Hroom. injection Hroom as <-.
        apply P_join; [done |]. intros room0. apply IH.
      * rewrite lookup_insert_ne in Hroom by done. by eapply IH.
    + injection Hstep as <- _. simpl in Hroom.
      rewrite disconnect_lookup in Hroom.
      destruct (rooms st !! r) as [room0 |] eqn:Hroom0; [| done].
      repeat case_bool_decide; simplify_eq; [| by eapply IH].
      apply P_leave; [by eapply IH | done].
    + injection Hstep as <- _. rewrite cleanup_lookup in Hroom.
      destruct (rooms st !! r) as [room0 |] eqn:Hroom0; [| done].
      destruct (swept now room0); simplify_eq. by eapply IH.
Qed.

End RoomInvariant.

(** X2. Every room of the registry has at least one member, in every state the
    server goes through: no room is ever left empty. *)
Theorem registry_rooms_never_empty (st : Server) (r : string) (room : Room) :
  reachable st → rooms st !! r = Some room → users room ≠ ∅.
Proof.
  apply (reachable_rooms_all (λ _ room, users room ≠ ∅)).
  - intros sid now hash flag st0 id _ _. unfold room_after_join.
    destruct (rooms st0 !! id); simpl; set_solver.
  - intros sid r0 room0 _ Hne. done.
Qed.

Lemma registry_rooms_never_empty_witness :
  reachable two_peers ∧
  rooms two_peers !! "ABCDEFGH" = Some (mkRoom {[ "sock1"; "sock2" ]} JNull 7) ∧
  users (mkRoom {[ "sock1"; "sock2" ]} JNull 7) ≠ ∅.
Proof.
  split; [exact two_peers_reachable |]. split; [reflexivity |].
  apply (registry_rooms_never_empty two_peers "ABCDEFGH");
    [exact two_peers_reachable | reflexivity].
Defined.

(** X3. In the states the server goes through the ten-minute sweep deletes
    nothing: it returns the state it was given, at any time. *)
Theorem sweep_finds_nothing (now : Z) (st : Server) :
  reachable st → room_cleanup now st = st.
Proof. apply reachable_sweep_idle. Qed.

Lemma sweep_finds_nothing_witness :
  reachable two_peers ∧ room_cleanup 999999999 two_peers = two_peers.
Proof.
  split; [exact two_peers_reachable |].
  apply (sweep_finds_nothing 999999999 two_peers). exact two_peers_reachable.
Defined.



(** X5. Every key of the registry is a well-formed room id, in every state the
    server goes through. *)
Theorem registry_keys_well_formed (st : Server) (r : string) (room : Room) :
  reachable st → rooms st !! r = Some room → room_id_regex r = true.
Proof.
  apply (reachable_rooms_all (λ r _, room_id_regex r = true)); auto.
Qed.

Lemma registry_keys_well_formed_witness :
  reachable two_peers ∧
  rooms two_peers !! "ABCDEFGH" = Some (mkRoom {[ "sock1"; "sock2" ]} JNull 7) ∧
  room_id_regex "ABCDEFGH" = true.
Proof.
  split; [exact two_peers_reachable |]. split; [reflexivity |].
  apply (registry_keys_well_formed two_peers "ABCDEFGH"
           (mkRoom {[ "sock1"; "sock2" ]} JNull 7));
    [exact two_peers_reachable | reflexivity].
Defined.

(** A stored hash is [null] or truthy: no room keeps an empty string, a
    zero or any other falsy value as its hash. *)
Lemma stored_hash_null_or_truthy st r room :
  reachable st → rooms st !! r = Some room →
  passwordHash room = JNull ∨ truthy (passwordHash room) = true.
Proof.
  apply (reachable_rooms_all
           (λ _ room, passwordHash room = JNull ∨ truthy (passwordHash room) = true)).
  - intros sid now hash flag st0 id _ IH. unfold room_after_join.
    destruct (rooms st0 !! id) as [room0 |]; simpl; [by apply IH |].
    destruct (truthy flag); simpl; [| by left].
    destruct (truthy hash) eqn:Hh; [by right | by left].
  - intros sid r0 room0 H _. done.
Qed.

(** ** check-room *)

Lemma on_check_room_reachable data st id :
  reachable st →
  names_room data id →
  on_check_room data st
  = Returns st
      [match (if room_id_regex id then rooms st !! id else None) with
       | Some room => room_info (is_protected room) true
       | None => ToSender "room-not-found" []
       end].
Proof.
  intros Hreach Hname. unfold names_room in Hname.
  unfold on_check_room. rewrite Hname. simpl.
  destruct (room_id_regex id); [| done]. simpl.
  destruct (rooms st !! id) as [room |] eqn:Hroom; [| done].
  pose proof (reachable_rooms_inhabited st id room Hreach Hroom) as Hne.
  unfold room_info, is_protected. do 6 f_equal.
  destruct (size (users room)) eqn:Hsize; [| done].
  exfalso. apply Hne. apply size_zero. by rewrite Hsize.
Qed.

(** X6. In the states the server goes through, a check-room that names a room
    id is answered room-not-found when the id is ill-formed or has no
    room, and otherwise with the protection of the room and
    [hasUsers: true]: [hasUsers: false] is never sent. The state is
    unchanged. *)
Theorem check_room_answer (data : JsVal) (st : Server) (id : string) :
  reachable st →
  names_room data id →
  on_check_room data st
  = Returns st
      [match (if room_id_regex id then rooms st !! id else None) with
       | Some room => room_info (is_protected room) true
       | None => ToSender "room-not-found" []
       end].
Proof. apply on_check_room_reachable. Qed.

Lemma check_room_answer_witness :
  reachable one_protected ∧
  names_room sample_null_query "ABCDEFGH" ∧
  on_check_room sample_null_query one_protected
  = Returns one_protected [room_info true true].
Proof.
  split; [exact one_protected_reachable |]. split; [reflexivity |].
  apply (check_room_answer sample_null_query one_protected "ABCDEFGH");
    [exact one_protected_reachable | reflexivity].
Defined.

(** X7. In the states the server goes through, a room for which some
    verify-password answers [{valid: true}] is one check-room reports as
    protected. *)
Theorem verified_room_is_protected (data query : JsVal) (st : Server)
    (id : string) :
  reachable st →
  names_room data id →
  names_room query id →
  on_verify_password data st = Returns st [password_verified true] →
  on_check_room query st = Returns st [room_info true true].
Proof.
  intros Hreach Hdata Hquery Hverify.
  destruct (names_room_obj _ _ Hdata) as (fields & -> & Hs).
  rewrite (verify_password_lookup (JObj fields) st id
             (assoc "passwordHash" fields) Hdata eq_refl) in Hverify.
  injection Hverify as Hvalid.
  apply andb_true_iff in Hvalid as [Hvalid Heq].
  apply andb_true_iff in Hvalid as [Hid Hty].
  rewrite (on_check_room_reachable query st id Hreach Hquery), Hid.
  destruct (rooms st !! id) as [room |] eqn:Hroom; [| done].
  destruct (stored_hash_null_or_truthy st id room Hreach Hroom) as [Hnull | Htrue].
  - rewrite Hnull, strict_eq_null_string in Heq; done.
  - unfold is_protected. by rewrite Htrue.
Qed.

Lemma verified_room_is_protected_witness :
  reachable one_protected ∧
  names_room sample_good_query "ABCDEFGH" ∧
  names_room sample_null_query "ABCDEFGH" ∧
  on_verify_password sample_good_query one_protected
  = Returns one_protected [password_verified true] ∧
  on_check_room sample_null_query one_protected
  = Returns one_protected [room_info true true].
Proof.
  split; [exact one_protected_reachable |]. split; [reflexivity |].
  split; [reflexivity |]. split; [reflexivity |].
  apply (verified_room_is_protected sample_good_query sample_null_query
           one_protected "ABCDEFGH");
    [exact one_protected_reachable | reflexivity | reflexivity | reflexivity].
Defined.

(** ** Which handlers write, and which throw *)



Lemma join_checked_throws sid now callback roomId hash isProtected st :
  (∃ st' out, join_checked sid now callback roomId hash isProtected st
              = Throws st' out)
  ↔ callback = NotCallable.
Proof.
  destruct (join_checked_cases sid now roomId hash isProtected st)
    as [(event_msg & ack_msg & H) | (id & _ & H)];
    rewrite H; destruct callback; simpl; naive_solver.
Qed.

Lemma if_callback_throws callback response st sent later :
  (∃ st' out, if_callback callback response st sent later = Throws st' out)
  ↔ callback = NotCallable.
Proof. destruct callback; simpl; naive_solver. Qed.

Lemma valid_socket_data_obj data :
  isValidSocketData data = true → ∃ fields, data = JObj fields.
Proof.
  intros H. destruct (valid_socket_data_inv _ H) as (id & Hname & _).
  destruct (names_room_obj _ _ Hname) as (fields & -> & _). eauto.
Qed.

(** X9. A handler throws in these cases only: check-room and
    verify-password when their payload is [null] or [undefined]; join-room
    when its payload is [null], and when its second argument is truthy and
    not a function, whatever the payload. The relayed messages never
    throw, and check-room and verify-password do not throw on an object, a
    string, a number or a boolean. *)
Theorem handler_throws_iff (sid : string) (m : Message) (st : Server) :
  (∃ st' out, handle sid m st = Throws st' out) ↔
  match m with
  | CheckRoom data | VerifyPassword data => data = JNull ∨ data = JUndefined
  | JoinRoom _ data callback => data = JNull ∨ callback = NotCallable
  | _ => False
  end.
Proof.
  assert (Hnever : ∀ o : Outcome,
    (∃ st0 out0, o = Returns st0 out0) → (∃ st' out, o = Throws st' out) ↔ False).
  { intros o (st0 & out0 & ->). naive_solver. }
  destruct m; simpl.
  - unfold on_check_room. destruct data; simpl; repeat case_match; naive_solver.
  - unfold on_verify_password.
    destruct data; simpl; repeat case_match; naive_solver.
  - unfold on_join_room. cbv zeta.
    destruct data; simpl; rewrite ?if_callback_throws, ?join_checked_throws;
      try naive_solver.
    destruct (truthy (assoc "roomId" fields));
      rewrite ?if_callback_throws, ?join_checked_throws; naive_solver.
  - unfold on_offer, relay_sdp. apply Hnever.
    destruct (isValidSocketData data) eqn:Hv; simpl; [| eauto].
    destruct (valid_socket_data_obj _ Hv) as [fields ->]. simpl.
    case_match; eauto.
  - unfold on_answer, relay_sdp. apply Hnever.
    destruct (isValidSocketData data) eqn:Hv; simpl; [| eauto].
    destruct (valid_socket_data_obj _ Hv) as [fields ->]. simpl.
    case_match; eauto.
  - unfold on_ice_candidate. apply Hnever.
    destruct (isValidSocketData data) eqn:Hv; simpl; [| eauto].
    destruct (valid_socket_data_obj _ Hv) as [fields ->]. simpl.
    case_match; eauto.
  - apply Hnever. destruct (file_meta_cases sid data st)
      as [(id & md & _ & _ & _ & ->) | [_ ->]]; eauto.
  - unfold on_transfer_done, relay_status. apply Hnever.
    destruct (isValidSocketData data) eqn:Hv; simpl; [| eauto].
    destruct (valid_socket_data_obj _ Hv) as [fields ->]. simpl. eauto.
  - unfold on_transfer_confirmed, relay_status. apply Hnever.
    destruct (isValidSocketData data) eqn:Hv; simpl; [| eauto].
    destruct (valid_socket_data_obj _ Hv) as [fields ->]. simpl. eauto.
Qed.

Lemma handler_throws_iff_witness :
  (∃ st' out,
     handle "sock1" (JoinRoom 7 (JStr "ABCDEFGH") NotCallable) initial
     = Throws st' out) ∧
  ¬ (∃ st' out, handle "sock1" sample_offer two_peers = Throws st' out).
Proof.
  split.
  - apply (proj2 (handler_throws_iff "sock1"
                    (JoinRoom 7 (JStr "ABCDEFGH") NotCallable) initial)).
    by right.
  - exact (proj1 (handler_throws_iff "sock1" sample_offer two_peers)).
Defined.

(** X23. A handler that throws leaves a state the server also reaches
    when no handler throws: the state it was in, or, for a join-room whose
    second argument cannot be called, the state the same join-room leaves
    when it returns. So what holds in every state the server goes through
    holds after a throw as well. *)
Theorem throw_leaves_reachable_state (e : Event) (st st' : Server)
    (out : list Emission) :
  reachable st → step e st = Throws st' out → reachable st'.
Proof. apply throw_state_reachable. Qed.

Lemma throw_leaves_reachable_state_witness :
  reachable one_peer ∧
  step (Receive "sock2" (JoinRoom 9 (JStr "ABCDEFGH") NotCallable)) one_peer
  = Throws two_peers [] ∧
  reachable two_peers.
Proof.
  assert (Hreach : reachable one_peer).
  { apply (run_reachable
             [Receive "sock1" (JoinRoom 7 (JStr "ABCDEFGH") AckFunction)]
             initial); [apply reachable_initial | vm_compute; reflexivity]. }
  assert (Hstep :
    step (Receive "sock2" (JoinRoom 9 (JStr "ABCDEFGH") NotCallable)) one_peer
    = Throws two_peers []).
  { vm_compute. reflexivity. }
  split; [exact Hreach |]. split; [exact Hstep |].
  exact (throw_leaves_reachable_state _ _ _ _ Hreach Hstep).
Defined.

(** ** join-room on other payloads *)

(** X10. A join-room whose payload is not [null] and gives no well-formed
    room id (neither as a bare string nor as the [roomId] of an object) is
    refused, and the state is unchanged. The handler sends the [error]
    event: 'Invalid room ID format' when the payload is a string or an
    object with a truthy [roomId], 'Invalid join-room data' otherwise. When
    its second argument is the acknowledgement function it then calls it
    with [{success: false, error}], the error being 'Invalid room ID' or
    'Invalid data'; a second argument that is truthy and not a function
    makes that call throw, after the event. *)
Theorem join_room_refused (sid : string) (now : Z) (data : JsVal)
    (callback : Callback) (st : Server) :
  data ≠ JNull →
  (∀ id, supplies_room_id (JoinRoom now data callback) id →
         room_id_regex id = false) →
  let checks_id := is_type data TString || truthy (supplied_room_id data) in
  let event_msg :=
    if checks_id then "Invalid room ID format" else "Invalid join-room data" in
  let ack_msg := if checks_id then "Invalid room ID" else "Invalid data" in
  on_join_room sid now data callback st
  = match callback with
    | NoCallback => Returns st [ToSender "error" [JStr event_msg]]
    | AckFunction =>
      Returns st [ToSender "error" [JStr event_msg];
                  Ack (JObj [("success", JBool false); ("error", JStr ack_msg)])]
    | NotCallable => Throws st [ToSender "error" [JStr event_msg]]
    end.
Proof.
  intros Hnull Hbad.
  assert (Hchecked : ∀ roomId hash flag,
    (∀ id, roomId = JStr id → room_id_regex id = false) →
    join_checked sid now callback roomId hash flag st
    = join_refused callback st "Invalid room ID format" "Invalid room ID").
  { intros roomId hash flag Hno. unfold join_checked.
    destruct (isValidRoomId roomId) eqn:Hvalid; simpl; [| by destruct callback].
    destruct roomId; try discriminate. simpl in Hvalid.
    rewrite (Hno s eq_refl) in Hvalid. discriminate. }
  unfold on_join_room. cbv zeta.
  destruct data; simpl; try done; try (by destruct callback).
  - rewrite Hchecked; [by destruct callback |].
    intros id [= ->]. apply Hbad. by right.
  - destruct (truthy (assoc "roomId" fields)); [| by destruct callback].
    rewrite Hchecked; [by destruct callback |].
    intros id Hid. apply Hbad. left. simpl.
    unfold names_room. simpl. by rewrite Hid.
Qed.

Lemma join_room_refused_witness :
  sample_numeric_join ≠ JNull ∧
  (∀ id, supplies_room_id (JoinRoom 0 sample_numeric_join NotCallable) id →
         room_id_regex id = false) ∧
  on_join_room "sock1" 0 sample_numeric_join NotCallable two_peers
  = Throws two_peers [ToSender "error" [JStr "Invalid room ID format"]].
Proof.
  assert (Hbad : ∀ id,
    supplies_room_id (JoinRoom 0 sample_numeric_join NotCallable) id →
    room_id_regex id = false).
  { intros id [H | H]; discriminate. }
  split; [discriminate |]. split; [exact Hbad |].
  apply (join_room_refused "sock1" 0 sample_numeric_join NotCallable two_peers);
    [discriminate | exact Hbad].
Defined.

(** ** How joins and disconnects compose *)

(** X11. In the states the server goes through, a join-room with a
    well-formed room id sends, after the acknowledgement if its second
    argument is the acknowledgement function, the arrival notice
    [user-joined] with the id of the joining socket, and the notice reaches
    the members the room had before, the joining socket left out. When the
    second argument is truthy and not a function the handler throws before
    the notice: nothing is sent. *)
Theorem user_joined_reaches_others (sid : string) (now : Z) (data : JsVal)
    (callback : Callback) (st : Server) (id : string) :
  reachable st →
  supplies_room_id (JoinRoom now data callback) id →
  room_id_regex id = true →
  ∃ st',
    on_join_room sid now data callback st
    = match callback with
      | NoCallback => Returns st' [ToRoom id "user-joined" [JStr sid]]
      | AckFunction =>
        Returns st' [Ack (JObj [("success", JBool true); ("roomId", JStr id)]);
                     ToRoom id "user-joined" [JStr sid]]
      | NotCallable => Throws st' []
      end ∧
    recipients st' sid (ToRoom id "user-joined" [JStr sid])
    = room_users st id ∖ {[sid]}.
Proof.
  intros Hreach Hsup Hid. rewrite (on_join_room_valid _ _ _ _ _ _ Hsup Hid).
  eexists. split; [by destruct callback |]. simpl.
  unfold socket_join, members at 1. rewrite lookup_insert_eq. simpl.
  rewrite (reachable_agrees st Hreach id). set_solver.
Qed.

Lemma user_joined_reaches_others_witness :
  reachable one_protected ∧
  supplies_room_id (JoinRoom 9 sample_wrong_hash_join NoCallback) "ABCDEFGH" ∧
  room_id_regex "ABCDEFGH" = true ∧
  ∃ st',
    on_join_room "sock2" 9 sample_wrong_hash_join NoCallback one_protected
    = Returns st' [ToRoom "ABCDEFGH" "user-joined" [JStr "sock2"]] ∧
    recipients st' "sock2" (ToRoom "ABCDEFGH" "user-joined" [JStr "sock2"])
    = room_users one_protected "ABCDEFGH" ∖ {[ "sock2" ]}.
Proof.
  split; [exact one_protected_reachable |]. split; [left; reflexivity |].
  split; [reflexivity |].
  apply (user_joined_reaches_others "sock2" 9 sample_wrong_hash_join NoCallback
           one_protected "ABCDEFGH");
    [exact one_protected_reachable | left; reflexivity | reflexivity].
Defined.

Lemma mkRoom_eta room :
  mkRoom (users room) (passwordHash room) (createdAt room) = room.
Proof. by destruct room. Qed.

(** A join by a socket that is already in the room, in the registry and
    for socket.io, writes the state it found. *)
Lemma join_member_state sid now hash flag st id room s :
  rooms st !! id = Some room → sid ∈ users room →
  joined st !! id = Some s → sid ∈ s →
  state_after_join sid now hash flag st id = st.
Proof.
  intros Hroom Hin Hs Hins. destruct st as [rs j o]. simpl in *.
  unfold state_after_join, room_after_join, order_after_join, socket_join,
    members.
  simpl. rewrite Hroom, Hs. simpl.
  replace ({[sid]} ∪ users room) with (users room) by set_solver.
  replace ({[sid]} ∪ s) with s by set_solver.
  rewrite mkRoom_eta. by rewrite !insert_id.
Qed.

(** X12. Joining twice is joining once: after a join-room of a socket, a
    second join-room of the same socket for the same room, whatever hash
    and flag it carries, leaves the state as it is. What it sends is what
    a join sends: the [{success: true, roomId}] acknowledgement when its
    second argument is the acknowledgement function, then the arrival
    notice; and it throws, with nothing sent, when its second argument is
    truthy and not a function. *)
Theorem join_room_twice (sid : string) (now now' : Z) (data data' : JsVal)
    (callback callback' : Callback) (st : Server) (id : string) :
  supplies_room_id (JoinRoom now data callback) id →
  supplies_room_id (JoinRoom now' data' callback') id →
  room_id_regex id = true →
  ∃ st1 out,
    on_join_room sid now data callback st
    = match callback with
      | NotCallable => Throws st1 out
      | _ => Returns st1 out
      end ∧
    on_join_room sid now' data' callback' st1
    = match callback' with
      | NoCallback => Returns st1 [ToRoom id "user-joined" [JStr sid]]
      | AckFunction =>
        Returns st1 [Ack (JObj [("success", JBool true); ("roomId", JStr id)]);
                     ToRoom id "user-joined" [JStr sid]]
      | NotCallable => Throws st1 []
      end.
Proof.
  intros Hsup Hsup' Hid.
  rewrite (on_join_room_valid _ _ _ _ _ _ Hsup Hid).
  eexists _, _. split; [apply join_accepted_ends |].
  rewrite (on_join_room_valid _ _ _ _ _ _ Hsup' Hid).
  erewrite join_member_state; [by destruct callback' | ..]; simpl.
  - apply lookup_insert_eq.
  - unfold room_after_join. destruct (rooms st !! id); simpl; set_solver.
  - unfold socket_join. apply lookup_insert_eq.
  - set_solver.
Qed.

Lemma join_room_twice_witness :
  supplies_room_id (JoinRoom 7 sample_protected_join AckFunction) "ABCDEFGH" ∧
  supplies_room_id (JoinRoom 9 sample_wrong_hash_join NoCallback) "ABCDEFGH" ∧
  room_id_regex "ABCDEFGH" = true ∧
  ∃ st1 out,
    on_join_room "sock1" 7 sample_protected_join AckFunction initial
    = Returns st1 out ∧
    on_join_room "sock1" 9 sample_wrong_hash_join NoCallback st1
    = Returns st1 [ToRoom "ABCDEFGH" "user-joined" [JStr "sock1"]].
Proof.
  split; [left; reflexivity |]. split; [left; reflexivity |].
  split; [reflexivity |].
  apply (join_room_twice "sock1" 7 9 sample_protected_join sample_wrong_hash_join
           AckFunction NoCallback initial "ABCDEFGH");
    [left; reflexivity | left; reflexivity | reflexivity].
Defined.

Lemma drop_user_member sid room :
  sid ∈ users room →
  drop_user sid room
  = if bool_decide (users room ∖ {[sid]} = ∅) then None
    else Some (mkRoom (users room ∖ {[sid]}) (passwordHash room) (createdAt room)).
Proof.
  intros Hin. unfold drop_user. rewrite bool_decide_eq_true_2 by done.
  destruct (size (users room ∖ {[sid]}) =? 0)%nat eqn:Hsize.
  - apply size_zero in Hsize. by rewrite bool_decide_eq_true_2.
  - rewrite bool_decide_eq_false_2; [done |].
    intros Hempty. apply size_zero in Hempty. congruence.
Qed.

Lemma filter_one {A} (P : A → Prop) `{∀ x, Decision (P x)} (l : list A) x :
  NoDup l → x ∈ l → P x → (∀ y, y ∈ l → y ≠ x → ¬ P y) → filter P l = [x].
Proof.
  induction l as [| y l IH]; intros Hnodup Hin Hx Hothers.
  - by apply elem_of_nil in Hin.
  - apply NoDup_cons in Hnodup as [Hy Hnodup].
    apply elem_of_cons in Hin as [<- | Hin].
    + rewrite filter_cons_True by done. f_equal.
      apply filter_none. intros z Hz. apply Hothers; [by right |].
      intros ->. contradiction.
    + rewrite filter_cons_False.
      * apply IH; [done | done | done |].
        intros z Hz. apply Hothers. by right.
      * apply Hothers; [by left |]. intros ->. contradiction.
Qed.

(** X13. A join undone by a disconnect: in a state the server goes through,
    when a socket that is in no room joins a room and then disconnects,
    the registry is again what it was before the join (a room the join
    created is gone, a room it entered has its former members, hash and
    creation time, and the rooms are in their former order), socket.io's
    rooms have their former members, and the disconnect sends one
    [user-left] notice carrying [{userId}] with the id of the socket, to
    that room. The join leaves the same state whether it returns or, on a
    second argument that is truthy and not a function, throws. *)
Theorem join_then_disconnect (sid : string) (now : Z) (data : JsVal)
    (callback : Callback) (st : Server) (id : string) :
  reachable st →
  (∀ r, sid ∉ room_users st r) →
  supplies_room_id (JoinRoom now data callback) id →
  room_id_regex id = true →
  ∃ st1 out1 st2,
    on_join_room sid now data callback st
    = match callback with
      | NotCallable => Throws st1 out1
      | _ => Returns st1 out1
      end ∧
    on_disconnect sid st1
    = Returns st2 [ToRoom id "user-left" [JObj [("userId", JStr sid)]]] ∧
    rooms st2 = rooms st ∧
    roomOrder st2 = roomOrder st ∧
    ∀ r, members (joined st2) r = members (joined st) r.
Proof.
  intros Hreach Hnot Hsup Hid.
  pose proof (reachable_agrees st Hreach) as Hag.
  pose proof (reachable_order st Hreach) as Hord.
  rewrite (on_join_room_valid _ _ _ _ _ _ Hsup Hid).
  set (st1 := state_after_join sid now (supplied_hash data) (supplied_flag data)
                st id).
  set (room1 := room_after_join sid now (supplied_hash data) (supplied_flag data)
                  st id).
  assert (Hin1 : sid ∈ users room1).
  { unfold room1, room_after_join. destruct (rooms st !! id); simpl; set_solver. }
  assert (Hothers : ∀ r room0, r ≠ id → rooms st !! r = Some room0 →
                               sid ∉ users room0).
  { intros r room0 _ Hr. specialize (Hnot r). unfold room_users in Hnot.
    by rewrite Hr in Hnot. }
  assert (Hord1 : order_lists_rooms st1) by by apply order_after_join_lists.
  assert (Hrooms : omap (drop_user sid) (rooms st1) = rooms st).
  { apply map_eq. intros r. rewrite lookup_omap. unfold st1, state_after_join.
    cbn [rooms]. fold room1.
    destruct (decide (r = id)) as [-> | Hne].
    + rewrite lookup_insert_eq.
      change (Some room1 ≫= drop_user sid) with (drop_user sid room1).
      rewrite (drop_user_member sid room1 Hin1).
      specialize (Hnot id). unfold room_users in Hnot.
      unfold room1, room_after_join in *.
      destruct (rooms st !! id) as [room |] eqn:Hroom; cbn [users passwordHash createdAt].
      * replace (({[sid]} ∪ users room) ∖ {[sid]}) with (users room)
          by set_solver.
        pose proof (reachable_rooms_inhabited st id room Hreach Hroom) as Hne.
        rewrite bool_decide_eq_false_2 by done. by rewrite mkRoom_eta.
      * rewrite bool_decide_eq_true_2; [done | set_solver].
    + rewrite lookup_insert_ne by done.
      destruct (rooms st !! r) as [room0 |] eqn:Hr; [| done]. simpl.
      unfold drop_user. rewrite bool_decide_eq_false_2; [done |].
      by eapply Hothers. }
  assert (Hleft : filter (λ r, sid ∈ from_option users ∅ (rooms st1 !! r))
                    (roomOrder st1) = [id]).
  { destruct Hord1 as [Hnodup1 Hkeys1]. apply filter_one; [done | | |].
    - apply Hkeys1. unfold st1, state_after_join. cbn [rooms].
      rewrite lookup_insert_eq. eauto.
    - unfold st1, state_after_join. cbn [rooms].
      by rewrite lookup_insert_eq.
    - intros r _ Hne. unfold st1, state_after_join. cbn [rooms].
      rewrite lookup_insert_ne by done. rewrite <- room_users_lookup.
      apply (Hnot r). }
  eexists st1, _, _. split; [apply join_accepted_ends |].
  unfold on_disconnect. rewrite Hleft, Hrooms.
  split; [reflexivity |]. cbn [rooms roomOrder joined].
  split; [done |]. split.
  - destruct Hord as [_ Hkeys]. unfold st1, state_after_join, order_after_join.
    cbn [roomOrder].
    destruct (rooms st !! id) as [room |] eqn:Hroom.
    + apply filter_all. intros r. apply Hkeys.
    + rewrite filter_app, filter_all by (intros r; apply Hkeys).
      rewrite filter_none; [apply app_nil_r |].
      intros r ->%list_elem_of_singleton. rewrite Hroom. by intros [? ?].
  - intros r. rewrite members_leave_all. unfold st1, state_after_join.
    cbn [joined]. unfold socket_join, members at 1.
    destruct (decide (r = id)) as [-> | Hne].
    + rewrite lookup_insert_eq. simpl.
      specialize (Hnot id). rewrite <- (Hag id) in Hnot. set_solver.
    + rewrite lookup_insert_ne by done. fold (members (joined st) r).
      specialize (Hnot r). rewrite <- (Hag r) in Hnot. set_solver.
Qed.

Lemma join_then_disconnect_witness :
  reachable one_peer ∧
  (∀ r, "sock2" ∉ room_users one_peer r) ∧
  supplies_room_id (JoinRoom 9 (JStr "ABCDEFGH") AckFunction) "ABCDEFGH" ∧
  room_id_regex "ABCDEFGH" = true ∧
  ∃ st1 out1 st2,
    on_join_room "sock2" 9 (JStr "ABCDEFGH") AckFunction one_peer
    = Returns st1 out1 ∧
    on_disconnect "sock2" st1
    = Returns st2 [ToRoom "ABCDEFGH" "user-left" [JObj [("userId", JStr "sock2")]]] ∧
    rooms st2 = rooms one_peer ∧
    roomOrder st2 = roomOrder one_peer ∧
    ∀ r, members (joined st2) r = members (joined one_peer) r.
Proof.
  assert (Hreach : reachable one_peer).
  { apply (run_reachable
             [Receive "sock1" (JoinRoom 7 (JStr "ABCDEFGH") AckFunction)]
             initial); [apply reachable_initial | vm_compute; reflexivity]. }
  assert (Hnot : ∀ r, "sock2" ∉ room_users one_peer r).
  { intros r. unfold room_users, one_peer. simpl.
    destruct (decide (r = "ABCDEFGH")) as [-> | Hne].
    - rewrite lookup_singleton_eq. simpl. set_solver.
    - rewrite lookup_singleton_ne by done. set_solver. }
  split; [exact Hreach |]. split; [exact Hnot |]. split; [right; reflexivity |].
  split; [reflexivity |].
  apply (join_then_disconnect "sock2" 9 (JStr "ABCDEFGH") AckFunction one_peer
           "ABCDEFGH");
    [exact Hreach | exact Hnot | right; reflexivity | reflexivity].
Defined.

(** X14. Disconnecting twice is disconnecting once: in the state a disconnect
    leaves, a second disconnect of the same socket changes nothing and
    sends nothing. *)
Theorem disconnect_twice (sid : string) (st : Server) :
  reachable st →
  ∃ st1 out,
    on_disconnect sid st = Returns st1 out ∧
    on_disconnect sid st1 = Returns st1 [].
Proof.
  intros Hreach. eexists _, _. split; [reflexivity |].
  apply disconnect_stranger.
  - apply (agrees_step (Disconnect sid) st _ _ (reachable_agrees st Hreach)
             eq_refl).
  - apply (order_step (Disconnect sid) st _ _ (reachable_order st Hreach)
             eq_refl).
  - intros r. rewrite (room_users_disconnect sid (rooms st) (joined st) (roomOrder st)).
    set_solver.
Qed.

Lemma disconnect_twice_witness :
  reachable two_peers ∧
  ∃ st1 out,
    on_disconnect "sock1" two_peers = Returns st1 out ∧
    on_disconnect "sock1" st1 = Returns st1 [].
Proof.
  split; [exact two_peers_reachable |].
  apply (disconnect_twice "sock1" two_peers). exact two_peers_reachable.
Defined.

(** * The limiter, beyond one window *)

Lemma rate_step_bounded cc e :
  (∀ ip d, cc !! ip = Some d → 1 ≤ count d ≤ MAX_CONNECTIONS_PER_IP) →
  ∀ ip d, rate_step cc e !! ip = Some d → 1 ≤ count d ≤ MAX_CONNECTIONS_PER_IP.
Proof.
  unfold MAX_CONNECTIONS_PER_IP. intros Hcc ip d.
  destruct e as [clientIP now | now]; simpl.
  - unfold rate_limit.
    destruct (cc !! clientIP) as [ipData |] eqn:Hip.
    + pose proof (Hcc clientIP ipData Hip) as Hb.
      destruct (now - firstConnection ipData <=? RATE_LIMIT_WINDOW);
        [destruct (MAX_CONNECTIONS_PER_IP <=? count ipData) eqn:Hmax |];
        simpl; intros Hd.
      * by eapply Hcc.
      * apply Z.leb_gt in Hmax. unfold MAX_CONNECTIONS_PER_IP in Hmax.
        apply lookup_insert_Some in Hd as [[_ <-] | [_ Hd]];
          [simpl; lia | by eapply Hcc].
      * apply lookup_insert_Some in Hd as [[_ <-] | [_ Hd]];
          [simpl; lia | by eapply Hcc].
    + simpl. intros Hd.
      apply lookup_insert_Some in Hd as [[_ <-] | [_ Hd]];
        [simpl; lia | by eapply Hcc].
  - unfold rate_cleanup. intros Hd.
    apply map_lookup_filter_Some in Hd as [Hd _]. by eapply Hcc.
Qed.

(** X15. Whatever connections and sweeps have happened since the server
    started, the count kept for an address is between 1 and 10. *)
Theorem rate_count_bounded (events : list RateEvent) (clientIP : string)
    (ipData : IpData) :
  rate_run events !! clientIP = Some ipData →
  1 ≤ count ipData ≤ MAX_CONNECTIONS_PER_IP.
Proof.
  unfold rate_run. revert clientIP ipData.
  induction events as [| e events IH] using rev_ind; intros ip d.
  - simpl. by rewrite lookup_empty.
  - rewrite foldl_snoc. apply rate_step_bounded. apply IH.
Qed.

Lemma rate_count_bounded_witness :
  rate_run (Connect "10.0.0.1" 1000 :: sample_burst) !! "10.0.0.1"
  = Some (mkIpData 10 1000) ∧
  1 ≤ count (mkIpData 10 1000) ≤ MAX_CONNECTIONS_PER_IP.
Proof.
  assert (Hrun : rate_run (Connect "10.0.0.1" 1000 :: sample_burst) !! "10.0.0.1"
                 = Some (mkIpData 10 1000)) by (vm_compute; reflexivity).
  split; [exact Hrun |].
  exact (rate_count_bounded _ "10.0.0.1" (mkIpData 10 1000) Hrun).
Defined.

(** The answer to a connection, and the state it leaves for its address,
    depend on the state of that address only. *)
Lemma rate_limit_local clientIP now (cc cc' : gmap string IpData) :
  cc !! clientIP = cc' !! clientIP →
  (rate_limit clientIP now cc).1 = (rate_limit clientIP now cc').1 ∧
  (rate_limit clientIP now cc).2 !! clientIP
  = (rate_limit clientIP now cc').2 !! clientIP.
Proof.
  intros Heq. unfold rate_limit. rewrite Heq.
  destruct (cc' !! clientIP) as [ipData |] eqn:Hip; simpl.
  - destruct (now - firstConnection ipData <=? RATE_LIMIT_WINDOW);
      [destruct (MAX_CONNECTIONS_PER_IP <=? count ipData) |]; simpl;
      rewrite ?lookup_insert_eq; [by rewrite Heq, Hip | done | done].
  - by rewrite !lookup_insert_eq.
Qed.

(** X16. The sweep of the limiter is invisible to admission: with a clock that
    does not go back, a connection after a sweep gets the answer it would
    get without the sweep, and leaves the same state for its address. *)
Theorem rate_sweep_transparent (clientIP : string) (swept_at now : Z)
    (cc : gmap string IpData) :
  swept_at ≤ now →
  (rate_limit clientIP now (rate_cleanup swept_at cc)).1
  = (rate_limit clientIP now cc).1 ∧
  (rate_limit clientIP now (rate_cleanup swept_at cc)).2 !! clientIP
  = (rate_limit clientIP now cc).2 !! clientIP.
Proof.
  intros Hclock.
  destruct (cc !! clientIP) as [ipData |] eqn:Hip.
  - pose proof (rate_cleanup_lookup clientIP swept_at cc ipData Hip) as Hswept.
    case_bool_decide as Hkept.
    + apply rate_limit_local. by rewrite Hswept, Hip.
    + unfold rate_limit. rewrite Hswept, Hip.
      rewrite (proj2 (Z.leb_gt (now - firstConnection ipData) RATE_LIMIT_WINDOW))
        by lia.
      simpl. by rewrite !lookup_insert_eq.
  - apply rate_limit_local. rewrite Hip.
    unfold rate_cleanup. apply map_lookup_filter_None. by left.
Qed.

Lemma rate_sweep_transparent_witness :
  61001 ≤ 61002 ∧
  (rate_limit "10.0.0.1" 61002
     (rate_cleanup 61001 (rate_run (Connect "10.0.0.1" 1000 :: sample_burst)))).1
  = (rate_limit "10.0.0.1" 61002
       (rate_run (Connect "10.0.0.1" 1000 :: sample_burst))).1.
Proof.
  split; [lia |].
  apply (rate_sweep_transparent "10.0.0.1" 61001 61002
           (rate_run (Connect "10.0.0.1" 1000 :: sample_burst))). lia.
Defined.

(** * The TURN configuration endpoint *)

Lemma truthy_env_value v : truthy (env_value v) = true ↔ ∃ s, v = Some s ∧ s ≠ "".
Proof.
  destruct v as [s |]; simpl.
  - rewrite negb_true_iff. destruct (String.eqb_spec s ""); naive_solver.
  - naive_solver.
Qed.

Lemma turn_configured_truthy env :
  truthy (env_value (TURN_SERVER_URL env))
  && truthy (env_value (TURN_SERVER_USERNAME env))
  && truthy (env_value (TURN_SERVER_PASSWORD env)) = true
  ↔ turn_configured env.
Proof.
  rewrite !andb_true_iff, !truthy_env_value. unfold turn_configured.
  naive_solver.
Qed.

(** X17. The answer of [/api/turn-config] always starts with the two STUN
    servers. Unless the URL, the user name and the password of the TURN
    server are all set and not empty, it is exactly the configuration the
    pages start with, so that no user name or password is sent on its own;
    when they are, the entry [{urls, username, credential}] of the TURN
    URL is there, every entry after the STUN servers is such an object
    with that user name and that password, for the TURN URL or for the TLS
    URL, and the TLS one is there only when its variable is set and not
    empty. *)
Theorem turn_config_entries (env : Env) :
  take 2 (iceServers env)
  = [JObj [("urls", JStr "stun:stun.l.google.com:19302")];
     JObj [("urls", JStr "stun:stun.services.mozilla.com")]] ∧
  (¬ turn_configured env → turnConfig env = rtcConfig) ∧
  (turn_configured env →
   JObj [("urls", env_value (TURN_SERVER_URL env));
         ("username", env_value (TURN_SERVER_USERNAME env));
         ("credential", env_value (TURN_SERVER_PASSWORD env))]
   ∈ iceServers env ∧
   ∀ e, e ∈ drop 2 (iceServers env) →
        ∃ urls,
          e = JObj [("urls", urls);
                    ("username", env_value (TURN_SERVER_USERNAME env));
                    ("credential", env_value (TURN_SERVER_PASSWORD env))] ∧
          (urls = env_value (TURN_SERVER_URL env) ∨
           urls = env_value (TURN_SERVER_TLS_URL env) ∧
           ∃ tls, TURN_SERVER_TLS_URL env = Some tls ∧ tls ≠ "")).
Proof.
  pose proof (turn_configured_truthy env) as Hconf.
  unfold turnConfig, iceServers.
  destruct (truthy (env_value (TURN_SERVER_URL env))
            && truthy (env_value (TURN_SERVER_USERNAME env))
            && truthy (env_value (TURN_SERVER_PASSWORD env))).
  - split; [done |]. split; [intros Hno; destruct Hno; by apply Hconf |].
    intros _. split; [set_solver |]. intros e He. simpl in He.
    destruct (truthy (env_value (TURN_SERVER_TLS_URL env))) eqn:Htls.
    + apply truthy_env_value in Htls. set_solver.
    + set_solver.
  - split; [done |]. split; [done |].
    intros Hyes. apply Hconf in Hyes. discriminate.
Qed.

Lemma turn_config_entries_witness :
  ¬ turn_configured sample_env ∧ turnConfig sample_env = rtcConfig.
Proof.
  assert (Hno : ¬ turn_configured sample_env).
  { intros (url & username & password & _ & _ & Huser & _). discriminate. }
  split; [exact Hno |].
  exact (proj1 (proj2 (turn_config_entries sample_env)) Hno).
Defined.

(** * The shared script of the pages *)

(** ** Strings *)

Lemma length_append s1 s2 :
  String.length (s1 +:+ s2) = (String.length s1 + String.length s2)%nat.
Proof. induction s1 as [| c s1 IH]; simpl; [done | by rewrite IH]. Qed.

Lemma all_alnum_append s1 s2 :
  all_alnum (s1 +:+ s2) = all_alnum s1 && all_alnum s2.
Proof.
  induction s1 as [| c s1 IH]; simpl; [done |].
  by rewrite IH, andb_assoc.
Qed.

Lemma length_substring_0 m s :
  String.length (String.substring 0 m s) = (m `min` String.length s)%nat.
Proof.
  revert s. induction m as [| m IH]; intros [| c s]; simpl; try done.
  by rewrite IH.
Qed.

Lemma length_substring n m s :
  String.length (String.substring n m s) = (m `min` (String.length s - n))%nat.
Proof.
  revert s. induction n as [| n IH]; intros s.
  - rewrite length_substring_0. by rewrite Nat.sub_0_r.
  - destruct s as [| c s]; simpl.
    + destruct m; simpl; lia.
    + destruct m; simpl; [| by rewrite IH].
      rewrite IH. lia.
Qed.

Lemma all_alnum_substring n m s :
  all_alnum s = true → all_alnum (String.substring n m s) = true.
Proof.
  revert n m. induction s as [| c s IH]; intros n m H.
  - by destruct n, m.
  - simpl in H. apply andb_true_iff in H as [Hc Hs].
    destruct n as [| n]; simpl.
    + destruct m as [| m]; simpl; [done |]. by rewrite Hc, IH.
    + destruct m; by apply IH.
Qed.

Lemma concat_cons s ls : String.concat "" (s :: ls) = s +:+ String.concat "" ls.
Proof.
  destruct ls as [| s' ls]; simpl; [| done].
  induction s as [| c s IH]; [done |].
  change (String c s = String c (s +:+ "")). by f_equal.
Qed.

(** ** Room ids made by the pages *)

Lemma digit36_alnum d : (d < 36)%N → is_alnum (digit36 d) = true.
Proof.
  intros Hd. unfold digit36, is_alnum.
  destruct (d <? 10)%N eqn:Hlt.
  - apply N.ltb_lt in Hlt. rewrite Ascii.N_ascii_embedding by lia.
    rewrite (proj2 (N.leb_le 48 (48 + d))), (proj2 (N.leb_le (48 + d) 57)) by lia.
    done.
  - apply N.ltb_ge in Hlt. rewrite Ascii.N_ascii_embedding by lia.
    rewrite (proj2 (N.leb_le 97 (87 + d))), (proj2 (N.leb_le (87 + d) 122)) by lia.
    by rewrite !orb_true_r.
Qed.

Lemma to_digits36_alnum fuel : ∀ n acc,
  all_alnum acc = true → all_alnum (to_digits36 fuel n acc) = true.
Proof.
  induction fuel as [| fuel IH]; intros n acc Hacc; simpl; [done |].
  assert (Hstep : all_alnum (String (digit36 (n `mod` 36)%N) acc) = true).
  { simpl. rewrite digit36_alnum, Hacc; [done |]. by apply N.mod_lt. }
  destruct (n `div` 36 =? 0)%N; [done | by apply IH].
Qed.

Lemma to_digits36_grows fuel : ∀ n acc,
  (String.length acc ≤ String.length (to_digits36 fuel n acc))%nat.
Proof.
  induction fuel as [| fuel IH]; intros n acc; simpl; [done |].
  destruct (n `div` 36 =? 0)%N; simpl; [lia |].
  etrans; [| apply IH]. simpl. lia.
Qed.

Lemma toString36_alnum n : all_alnum (toString36 n) = true.
Proof. by apply to_digits36_alnum. Qed.

Lemma toString36_nonempty n : (1 ≤ String.length (toString36 n))%nat.
Proof.
  unfold toString36. simpl.
  destruct (n `div` 36 =? 0)%N; simpl; [lia |].
  etrans; [| apply to_digits36_grows]. simpl. lia.
Qed.

(** A number from [36^k] up to [36^(k+1)] has [k+1] digits. *)
Lemma to_digits36_length k : ∀ fuel n acc,
  (n < 36 ^ N.of_nat (S k))%N →
  (k = 0%nat ∨ 36 ^ N.of_nat k ≤ n)%N →
  (k < fuel)%nat →
  String.length (to_digits36 fuel n acc) = (S k + String.length acc)%nat.
Proof.
  induction k as [| k IH]; intros fuel n acc Hlt Hge Hfuel;
    (destruct fuel as [| fuel]; [lia |]); simpl.
  - change (36 ^ N.of_nat 1)%N with 36%N in Hlt.
    rewrite N.div_small by done. done.
  - assert (Hpow : ∀ j, (36 ^ N.of_nat (S j) = 36 * 36 ^ N.of_nat j)%N).
    { intros j. by rewrite Nat2N.inj_succ, N.pow_succ_r'. }
    destruct Hge as [Hge | Hge]; [done |].
    rewrite Hpow in Hge. rewrite Hpow in Hlt.
    assert (Hq : (36 ^ N.of_nat k ≤ n `div` 36)%N).
    { apply N.div_le_lower_bound; [done | lia]. }
    assert (Hq' : (n `div` 36 < 36 ^ N.of_nat (S k))%N).
    { apply N.Div0.div_lt_upper_bound. lia. }
    assert (Hpos : (0 < 36 ^ N.of_nat k)%N).
    { apply N.neq_0_lt_0, N.pow_nonzero. done. }
    rewrite (proj2 (N.eqb_neq _ _)) by lia.
    rewrite (IH fuel (n `div` 36)%N); [simpl; lia | done | | lia].
    destruct k; [by left | by right].
Qed.

Lemma log2_digits k n :
  (36 ^ N.of_nat k ≤ n)%N → (k ≤ N.to_nat (N.log2 n))%nat.
Proof.
  intros Hn.
  assert (H2 : (2 ^ N.of_nat k ≤ n)%N).
  { etrans; [| exact Hn]. apply N.pow_le_mono_l. lia. }
  apply N.log2_le_mono in H2. rewrite N.log2_pow2 in H2 by lia. lia.
Qed.

Lemma toString36_length k n :
  (36 ^ N.of_nat k ≤ n < 36 ^ N.of_nat (S k))%N →
  String.length (toString36 n) = S k.
Proof.
  intros [Hge Hlt]. unfold toString36.
  rewrite (to_digits36_length k); [simpl; lia | done | by right |].
  pose proof (log2_digits k n Hge). lia.
Qed.

Lemma concat_digits_alnum array :
  all_alnum (String.concat "" (toString36 <$> array)) = true.
Proof.
  induction array as [| n array IH]; [done |].
  rewrite fmap_cons, concat_cons, all_alnum_append, toString36_alnum. done.
Qed.

Lemma concat_digits_length array :
  (length array ≤ String.length (String.concat "" (toString36 <$> array)))%nat.
Proof.
  induction array as [| n array IH]; [done |].
  rewrite fmap_cons, concat_cons, length_append. simpl.
  pose proof (toString36_nonempty n). lia.
Qed.

(** X18. With [crypto.getRandomValues], whatever the twelve random bytes are,
    the room id a page makes has exactly 11 characters, all of them digits
    or lower-case letters: the server accepts it as well-formed. *)
Theorem secure_room_id_well_formed (array : list N) (random36 : string)
    (now : N) :
  length array = 12%nat →
  String.length (generateSecureRoomId true array random36 now) = 11%nat ∧
  isValidRoomId (JStr (generateSecureRoomId true array random36 now)) = true.
Proof.
  intros Hlen. set (id := generateSecureRoomId true array random36 now).
  pose proof (concat_digits_length array) as Hlong. rewrite Hlen in Hlong.
  assert (Hsize : String.length id = 11%nat).
  { unfold id, generateSecureRoomId, js_substring.
    rewrite length_substring_0. lia. }
  split; [done |]. change (room_id_regex id = true).
  unfold room_id_regex. rewrite Hsize. simpl.
  unfold id, generateSecureRoomId, js_substring.
  apply all_alnum_substring, concat_digits_alnum.
Qed.

Lemma secure_room_id_well_formed_witness :
  length [200; 255; 36; 35; 4; 5; 6; 7; 8; 9; 10; 11]%N = 12%nat ∧
  String.length
    (generateSecureRoomId true [200; 255; 36; 35; 4; 5; 6; 7; 8; 9; 10; 11]%N "" 0)
  = 11%nat ∧
  isValidRoomId
    (JStr (generateSecureRoomId true
             [200; 255; 36; 35; 4; 5; 6; 7; 8; 9; 10; 11]%N "" 0)) = true.
Proof.
  split; [reflexivity |].
  apply (secure_room_id_well_formed
           [200; 255; 36; 35; 4; 5; 6; 7; 8; 9; 10; 11]%N "" 0).
  reflexivity.
Defined.

(** X19. Without [crypto.getRandomValues], at any time from 1972 to 2059 (a
    clock from [36^7] up to [36^8] milliseconds), the time contributes 8
    characters to the room id; when [Math.random().toString(36)] has at
    least 10 characters, the id has 16 or 17 characters and the server
    refuses it as ill-formed. *)
Theorem fallback_room_id_refused (array : list N) (random36 : string)
    (now : N) :
  (36 ^ 7 ≤ now < 36 ^ 8)%N →
  (10 ≤ String.length random36)%nat →
  (16 ≤ String.length (generateSecureRoomId false array random36 now) ≤ 17)%nat ∧
  isValidRoomId (JStr (generateSecureRoomId false array random36 now)) = false.
Proof.
  intros Hnow Hrandom. set (id := generateSecureRoomId false array random36 now).
  assert (Hsize : (16 ≤ String.length id ≤ 17)%nat).
  { unfold id, generateSecureRoomId, js_substring.
    rewrite length_append, length_substring, (toString36_length 7 now Hnow). lia. }
  split; [done |]. change (room_id_regex id = false). unfold room_id_regex.
  rewrite (proj2 (Nat.leb_gt _ 15)) by lia. by rewrite andb_false_r.
Qed.

Lemma fallback_room_id_refused_witness :
  (36 ^ 7 ≤ 1700000000000 < 36 ^ 8)%N ∧
  (10 ≤ String.length "0.4fzyo82mvyr")%nat ∧
  (16 ≤ String.length (generateSecureRoomId false [] "0.4fzyo82mvyr" 1700000000000)
   ≤ 17)%nat ∧
  isValidRoomId (JStr (generateSecureRoomId false [] "0.4fzyo82mvyr" 1700000000000))
  = false.
Proof.
  assert (Hnow : (36 ^ 7 ≤ 1700000000000 < 36 ^ 8)%N)
    by (split; [by vm_compute | by vm_compute]).
  assert (Hrandom : (10 ≤ String.length "0.4fzyo82mvyr")%nat) by (simpl; lia).
  split; [exact Hnow |]. split; [exact Hrandom |].
  exact (fallback_room_id_refused [] "0.4fzyo82mvyr" 1700000000000 Hnow Hrandom).
Defined.

(** ** File size: the page and the server *)

Lemma size_value_in_range n :
  bad_size (size_value n) = (CLIENT_MAX_FILE_SIZE <? n)%N.
Proof.
  unfold size_value, bad_size, num_lt, MAX_FILE_SIZE, CLIENT_MAX_FILE_SIZE.
  assert (Hlow : Qle_bool 0 (inject_Z (Z.of_N n)) = true).
  { apply Qle_bool_iff. change 0%Q with (inject_Z 0). rewrite <- Zle_Qle. lia. }
  rewrite Hlow. simpl negb. rewrite orb_false_l.
  destruct (10 * 1024 * 1024 * 1024 <? n)%N eqn:Hbig.
  - apply N.ltb_lt in Hbig. apply negb_true_iff.
    destruct (Qle_bool (inject_Z (Z.of_N n)) (inject_Z (10 * 1024 * 1024 * 1024)))
      eqn:Hq; [| done].
    apply Qle_bool_iff in Hq. rewrite <- Zle_Qle in Hq. lia.
  - apply N.ltb_ge in Hbig. apply negb_false_iff.
    apply Qle_bool_iff. rewrite <- Zle_Qle. lia.
Qed.

(** X20. The page and the server draw the same line: for a file-meta with a
    well-formed room id whose metadata carries the name and the size of a
    file, the server relays it exactly when [validateFile] accepts the
    file, and drops it exactly when [validateFile] refuses it; a file of
    10 GiB to the byte passes both. *)
Theorem validated_file_is_relayed (f : File) (sid : string)
    (data metadata : JsVal) (st : Server) (id : string) :
  names_room data id →
  room_id_regex id = true →
  get_prop data "metadata" = Some metadata →
  get_prop metadata "name" = Some (JStr (file_name f)) →
  get_prop metadata "size" = Some (size_value (file_size f)) →
  on_file_meta sid data st
  = if (validateFile (Some f)).1
    then Returns st [ToRoom id "file-meta" [metadata]]
    else Returns st [].
Proof.
  intros Hname Hid Hmd Hn Hsz.
  assert (Hvalidate : (validateFile (Some f)).1
                      = negb (CLIENT_MAX_FILE_SIZE <? file_size f)%N).
  { unfold validateFile. by destruct (CLIENT_MAX_FILE_SIZE <? file_size f)%N. }
  rewrite Hvalidate, <- size_value_in_range.
  pose proof (bad_size_range (JFin (inject_Z (Z.of_N (file_size f))))) as Hrange.
  fold (size_value (file_size f)) in Hrange.
  destruct (file_meta_cases sid data st)
    as [(id' & md' & Hname' & Hmd' & Hok & ->) | [Hno ->]].
  - unfold names_room in Hname, Hname'. rewrite Hname in Hname'.
    rewrite Hmd in Hmd'. injection Hname' as <-. injection Hmd' as <-.
    destruct Hok as (id2 & md2 & name2 & n2 & _ & _ & Hmd2 & _ & Hsz2 & Hin).
    rewrite Hmd in Hmd2. injection Hmd2 as <-.
    rewrite Hsz in Hsz2. injection Hsz2 as <-.
    apply Hrange in Hin. by rewrite Hin.
  - destruct (bad_size (size_value (file_size f))) eqn:Hbad; [done |].
    exfalso. apply Hno.
    exists id, metadata, (file_name f), (JFin (inject_Z (Z.of_N (file_size f)))).
    do 5 (split; [done |]). by apply Hrange.
Qed.

Lemma validated_file_is_relayed_witness :
  names_room sample_largest_meta "ABCDEFGH" ∧
  room_id_regex "ABCDEFGH" = true ∧
  on_file_meta "sock1" sample_largest_meta two_peers
  = if (validateFile (Some sample_largest_file)).1
    then Returns two_peers
           [ToRoom "ABCDEFGH" "file-meta"
              [JObj [("name", JStr "disk.img");
                     ("size", size_value CLIENT_MAX_FILE_SIZE)]]]
    else Returns two_peers [].
Proof.
  split; [reflexivity |]. split; [reflexivity |].
  apply (validated_file_is_relayed sample_largest_file "sock1" sample_largest_meta
           (JObj [("name", JStr "disk.img");
                  ("size", size_value CLIENT_MAX_FILE_SIZE)])
           two_peers "ABCDEFGH"); reflexivity.
Defined.

(** ** Timeouts as text *)



Example formatTimeout_samples :
  formatTimeout 300000 = "5m" ∧ formatTimeout 90500 = "1m 30s" ∧
  formatTimeout 59999 = "59s" ∧ formatTimeout 0 = "0s" ∧
  formatTimeout 3600000 = "60m".
Proof. repeat split. Qed.

(** ** Compatibility warnings *)

(** X22. Which warnings the banner lists: the one about WebRTC exactly when
    [RTCPeerConnection] is missing, the one about saving files exactly
    when [showSaveFilePicker] is missing and the device is not a mobile
    one, and the one about random numbers exactly when
    [crypto.getRandomValues] is missing; in that order (WebRTC, file
    saving, random numbers), and nothing else. So there is no banner at
    all exactly when none of the three applies. *)
Theorem compatibility_warnings_shown (w : Browser) (isMobile : bool) :
  filteredWarnings w isMobile
  = ((if hasRTCPeerConnection w then [] else [WEBRTC_WARNING])
     ++ (if hasShowSaveFilePicker w || isMobile then [] else [SAVE_WARNING])
     ++ (if hasGetRandomValues w then [] else [RANDOM_WARNING]))%list ∧
  (filteredWarnings w isMobile = [] ↔
   hasRTCPeerConnection w = true ∧ hasGetRandomValues w = true ∧
   (hasShowSaveFilePicker w = true ∨ isMobile = true)).
Proof.
  destruct w as [[] [] []], isMobile; vm_compute; naive_solver.
Qed.
